(** * A shallow embedding of NEKO-translate

    [cat_translate/cli.py] (language resolution, prompt construction, sampler
    decision, input reading) and [scripts/to_mlx.py] (the conversion driver).
    External services (the language detector, the MLX runtime, the
    [mlx_lm convert] subprocess) are parameters of the model. *)

From Stdlib Require Import ZArith List String Ascii QArith Bool Lia.
Import ListNotations.

Open Scope Z_scope.

(** ** Python strings

    A Python [str] is a sequence of Unicode code points. *)

Definition pystr := list Z.

(** Code points of an ASCII literal. *)
Definition lit (s : string) : pystr :=
  map (fun c => Z.of_nat (nat_of_ascii c)) (list_ascii_of_string s).

Definition pystr_eqb (a b : pystr) : bool :=
  if list_eq_dec Z.eq_dec a b then true else false.

(** [str.isspace] for one code point: the characters Python's [str.strip()]
    removes (bidirectional class WS, B, S or category Zs). *)
Definition py_isspace (c : Z) : bool :=
  ((9 <=? c) && (c <=? 13)) || ((28 <=? c) && (c <=? 32))
  || (c =? 133) || (c =? 160) || (c =? 5760)
  || ((8192 <=? c) && (c <=? 8202))
  || (c =? 8232) || (c =? 8233) || (c =? 8239) || (c =? 8287) || (c =? 12288).

Fixpoint drop_while (p : Z -> bool) (s : pystr) : pystr :=
  match s with
  | [] => []
  | c :: s' => if p c then drop_while p s' else s
  end.

(** [str.strip()] with no argument. *)
Definition py_strip (s : pystr) : pystr :=
  rev (drop_while py_isspace (rev (drop_while py_isspace s))).

(** [str.lower()] on one code point: ASCII and Latin-1 capitals, and the
    Kelvin sign (which lowers to ASCII [k]).  Other code points of the
    Unicode case tables are left unchanged by this model; none of them lowers
    into the ASCII letters of the language tables below. *)
Definition py_lower_char (c : Z) : Z :=
  if (65 <=? c) && (c <=? 90) then c + 32
  else if (192 <=? c) && (c <=? 222) && negb (c =? 215) then c + 32
  else if c =? 8490 then 107
  else c.

Definition py_lower (s : pystr) : pystr := map py_lower_char s.

(** Lexicographic order on code points, as Python compares strings. *)
Fixpoint pystr_ltb (a b : pystr) : bool :=
  match a, b with
  | _, [] => false
  | [], _ :: _ => true
  | x :: a', y :: b' => (x <? y) || ((x =? y) && pystr_ltb a' b')
  end.

Fixpoint insert_sorted (x : pystr) (l : list pystr) : list pystr :=
  match l with
  | [] => [x]
  | y :: l' => if pystr_ltb y x then y :: insert_sorted x l' else x :: l
  end.

(** [sorted(...)] of a list of strings. *)
Definition py_sorted (l : list pystr) : list pystr :=
  fold_right insert_sorted [] l.

(** [dict.get] on a dict with string keys, kept as an association list. *)
Fixpoint dict_get {V} (d : list (pystr * V)) (k : pystr) : option V :=
  match d with
  | [] => None
  | (k', v) :: d' => if pystr_eqb k k' then Some v else dict_get d' k
  end.

(** ** Results of code that may raise *)

Inductive res (E A : Type) : Type :=
| Ok : A -> res E A
| Err : E -> res E A.
Arguments Ok {E A} _.
Arguments Err {E A} _.

Definition res_bind {E A B} (r : res E A) (f : A -> res E B) : res E B :=
  match r with
  | Ok a => f a
  | Err e => Err e
  end.

Notation "'let*' x := c1 'in' c2" := (res_bind c1 (fun x => c2))
  (at level 61, x pattern, c1 at next level, right associativity).

(** * [cat_translate/cli.py] *)
Module Cli.

(** The [SystemExit] and [KeyError] exits of the module. *)
Inductive error :=
| UnsupportedLanguage (value : pystr) (supported : list pystr)
| DetectionFailed
| OnlyEnglishJapanese
| SameLanguages
| NoTextTty
| NoTextStdin
| KeyError (key : pystr).

Definition ja : pystr := lit "ja".
Definition en : pystr := lit "en".

(** [日本語] *)
Definition nihongo : pystr := [26085; 26412; 35486].

Definition LANG_CODE_MAP : list (pystr * pystr) :=
  [ (lit "ja", ja); (lit "jp", ja); (lit "japanese", ja); (nihongo, ja);
    (lit "en", en); (lit "eng", en); (lit "english", en) ].

Definition LANG_NAME_MAP : list (pystr * pystr) :=
  [ (ja, lit "Japanese"); (en, lit "English") ].

Definition SUPPORTED_LANGS : list pystr := [ja; en].

Definition in_supported (x : pystr) : bool :=
  existsb (pystr_eqb x) SUPPORTED_LANGS.

(** [normalize_lang] *)
Definition normalize_lang (value : option pystr) : res error (option pystr) :=
  match value with
  | None => Ok None
  | Some v =>
      let key := py_lower (py_strip v) in
      match dict_get LANG_CODE_MAP key with
      | None => Err (UnsupportedLanguage v (py_sorted SUPPORTED_LANGS))
      | Some n => Ok (Some n)
      end
  end.

(** What [fast_langdetect.detect(text, k=3, model="auto")] returns: one
    result dict or a list of them, ranked; each dict is represented by its
    ["lang"] entry, as read by [item.get("lang")]. *)
Inductive detect_out :=
| DetOne (lang : option pystr)
| DetMany (langs : list (option pystr)).

Definition lang_supported (l : option pystr) : bool :=
  match l with
  | Some x => in_supported x
  | None => false
  end.

Fixpoint first_supported (items : list (option pystr)) : res error pystr :=
  match items with
  | [] => Err DetectionFailed
  | Some l :: rest => if in_supported l then Ok l else first_supported rest
  | None :: rest => first_supported rest
  end.

Section Resolver.
(** The external detector, given the text and the number [k] of ranked
    candidates requested. *)
Variable detect : pystr -> nat -> detect_out.

(** [detect_lang] *)
Definition detect_lang (text : pystr) : res error pystr :=
  let results_iter :=
    match detect text 3%nat with
    | DetOne l => [l]
    | DetMany ls => ls
    end in
  first_supported results_iter.

(** ["ja" if x == "en" else "en"] *)
Definition other_lang (x : pystr) : pystr :=
  if pystr_eqb x en then ja else en.

(** [resolve_languages]; the informational line written to stderr in the
    detection branch is not part of the result. *)
Definition resolve_languages (input_arg output_arg : option pystr)
    (text : pystr) : res error (pystr * pystr) :=
  let* input_lang := normalize_lang input_arg in
  let* output_lang := normalize_lang output_arg in
  match input_lang, output_lang with
  | None, None =>
      let* i := detect_lang text in
      Ok (i, other_lang i)
  | None, Some o => Ok (other_lang o, o)
  | Some i, None => Ok (i, other_lang i)
  | Some i, Some o =>
      if negb (in_supported i) || negb (in_supported o) then
        Err OnlyEnglishJapanese
      else if pystr_eqb i o then Err SameLanguages
      else Ok (i, o)
  end.

End Resolver.

(** [read_text]: [text_arg] is [args.text]; the standard input is given by
    whether it is a terminal and by what [sys.stdin.read()] returns. *)
Definition read_text (text_arg : option pystr) (stdin_isatty : bool)
    (stdin_data : pystr) : res error pystr :=
  match text_arg with
  | Some t => Ok t
  | None =>
      if stdin_isatty then Err NoTextTty
      else match py_strip stdin_data with
           | [] => Err NoTextStdin
           | _ :: _ => Ok stdin_data
           end
  end.

(** [PROMPT_TEMPLATE.format(src_lang=..., tgt_lang=..., src_text=...)] *)
Definition PROMPT_TEMPLATE_format (src_lang tgt_lang src_text : pystr) : pystr :=
  lit "Translate the following " ++ src_lang ++ lit " text into "
  ++ tgt_lang ++ lit "." ++ [10; 10] ++ src_text.

(** [LANG_NAME_MAP[code]] *)
Definition lang_name (code : pystr) : res error pystr :=
  match dict_get LANG_NAME_MAP code with
  | Some n => Ok n
  | None => Err (KeyError code)
  end.

(** The prompt built in [main] from the resolved pair and the text. *)
Definition build_prompt (input_lang output_lang text : pystr) : res error pystr :=
  let* s := lang_name input_lang in
  let* t := lang_name output_lang in
  Ok (PROMPT_TEMPLATE_format s t text).

(** ** [run_mlx]

    Floats are modelled as rationals; Python truthiness of a float is
    [x != 0], of an int [x != 0]. *)
Definition float_truthy (x : Q) : bool := negb (Qeq_bool x 0).
Definition float_gt (x y : Q) : bool := negb (Qle_bool x y).
Definition float_lt (x y : Q) : bool := negb (Qle_bool y x).

Record gen_args := {
  temperature : Q;
  top_p : Q;
  top_k : Z;
  max_new_tokens : Z;
  no_chat_template : bool
}.

(** The arguments of [make_sampler(temp=..., top_p=..., top_k=...)]. *)
Record sampler := { s_temp : Q; s_top_p : Q; s_top_k : Z }.

(** The call [generate(model, tokenizer, prompt_text, **gen_kwargs)]. *)
Record gen_request := {
  g_prompt_text : pystr;
  g_max_tokens : Z;
  g_sampler : option sampler
}.

(** The condition of the [if] that guards [make_sampler]. *)
Definition wants_sampler (a : gen_args) : bool :=
  (float_truthy (temperature a) && float_gt (temperature a) 0)
  || (float_truthy (top_p a) && float_lt (top_p a) 1)
  || (negb (top_k a =? 0) && (top_k a >? 0)).

(** [run_mlx] up to the [generate] call.  [chat_template] is the
    tokenizer's [apply_chat_template] applied to the single user message
    with [add_generation_prompt=True], when the tokenizer has one. *)
Definition run_mlx (chat_template : option (pystr -> pystr)) (prompt : pystr)
    (a : gen_args) : gen_request :=
  let prompt_text :=
    match chat_template with
    | Some apply => if negb (no_chat_template a) then apply prompt else prompt
    | None => prompt
    end in
  let sampler :=
    if wants_sampler a then
      Some {| s_temp := temperature a; s_top_p := top_p a; s_top_k := top_k a |}
    else None in
  {| g_prompt_text := prompt_text; g_max_tokens := max_new_tokens a;
     g_sampler := sampler |}.

(** [main] after [parse_args], from [read_text] to the request handed to
    [generate]; [chat_template] and [detect] are the tokenizer and the
    detector.  Loading the model and generating are not modelled, so their
    own failures (a missing model directory, say) are outside this
    definition: it describes the runs that reach [generate]. *)
Definition main (detect : pystr -> nat -> detect_out)
    (chat_template : option (pystr -> pystr))
    (text_arg : option pystr) (stdin_isatty : bool) (stdin_data : pystr)
    (input_arg output_arg : option pystr) (a : gen_args) : res error gen_request :=
  let* text := read_text text_arg stdin_isatty stdin_data in
  let* langs := resolve_languages detect input_arg output_arg text in
  let* prompt := build_prompt (fst langs) (snd langs) text in
  Ok (run_mlx chat_template prompt a).

End Cli.

(** * [scripts/to_mlx.py] *)
Module ToMlx.

(** ** [pathlib.PurePosixPath]

    A path is its root flag and its parts; joining drops empty and ["."]
    parts, and an absolute right operand replaces the left one. *)
Record path := { p_root : bool; p_parts : list pystr }.

Definition path_eqb (a b : path) : bool :=
  Bool.eqb (p_root a) (p_root b)
  && (if list_eq_dec (list_eq_dec Z.eq_dec) (p_parts a) (p_parts b)
      then true else false).

Fixpoint split_slash_aux (s : pystr) (cur : pystr) : list pystr :=
  match s with
  | [] => [rev cur]
  | c :: s' =>
      if c =? 47 then rev cur :: split_slash_aux s' []
      else split_slash_aux s' (c :: cur)
  end.

Definition split_slash (s : pystr) : list pystr := split_slash_aux s [].

Definition keep_part (x : pystr) : bool :=
  negb (pystr_eqb x []) && negb (pystr_eqb x (lit ".")).

(** [Path(s)] *)
Definition path_of_str (s : pystr) : path :=
  {| p_root := match s with 47 :: _ => true | _ => false end;
     p_parts := filter keep_part (split_slash s) |}.

(** [p / s] *)
Definition path_div (p : path) (s : pystr) : path :=
  let q := path_of_str s in
  if p_root q then q
  else {| p_root := p_root p; p_parts := p_parts p ++ p_parts q |}.

(** [p.parent] *)
Definition path_parent (p : path) : path :=
  {| p_root := p_root p; p_parts := removelast (p_parts p) |}.

Fixpoint join_slash (l : list pystr) : pystr :=
  match l with
  | [] => []
  | [x] => x
  | x :: l' => x ++ [47] ++ join_slash l'
  end.

(** [str(p)] *)
Definition path_str (p : path) : pystr :=
  match p_root p, p_parts p with
  | false, [] => lit "."
  | true, parts => 47 :: join_slash parts
  | false, parts => join_slash parts
  end.

(** ** [str(n)] of an int *)
Fixpoint digits_aux (fuel : nat) (n : N) (acc : pystr) : pystr :=
  match fuel with
  | O => acc
  | S f =>
      let acc' := (48 + Z.of_N (N.modulo n 10)) :: acc in
      if N.eqb (N.div n 10) 0 then acc' else digits_aux f (N.div n 10) acc'
  end.

Definition int_str (z : Z) : pystr :=
  let n := Z.abs_N z in
  let ds := digits_aux (S (N.size_nat n)) n [] in
  if z <? 0 then 45 :: ds else ds.

(** ** The file system

    [fs] lists the existing directories and [files] the existing entries
    that are not directories (regular files and the like).  The empty
    relative path (the working directory) and the empty absolute path (the
    root) are directories. *)
Definition fsys := list path.

Definition in_paths (l : list path) (p : path) : bool := existsb (path_eqb p) l.

(** [p] is a directory of [fs]. *)
Definition is_dir_at (fs : fsys) (p : path) : bool :=
  match p_parts p with
  | [] => true
  | _ :: _ => in_paths fs p
  end.

(** The path made of the first [i] parts of [p]. *)
Definition prefix_path (p : path) (i : nat) : path :=
  {| p_root := p_root p; p_parts := firstn i (p_parts p) |}.

(** The proper ancestors of [p] other than the root or working directory,
    from the top down: the directories the kernel walks through to reach
    [p]. *)
Definition walked_parents (p : path) : list path :=
  map (prefix_path p) (seq 1 (List.length (p_parts p) - 1)).

(** [fs] with [p] and all its ancestors added. *)
Definition mkdir_parents (p : path) (fs : fsys) : fsys :=
  map (fun i => {| p_root := p_root p; p_parts := firstn i (p_parts p) |})
      (seq 1 (List.length (p_parts p)))
  ++ fs.

(** ** Errors, observable events and the driver's state *)
(** The [errno] of an [OSError] raised by [os.mkdir]: [FileNotFoundError],
    [FileExistsError] and [NotADirectoryError]. *)
Inductive errno := ENOENT | EEXIST | ENOTDIR.

Inductive error :=
| UnsupportedQbits (invalid : list Z) (supported : list Z)
| OutputExists (out_dir : path)
| CalledProcessError (returncode : Z) (cmd : list pystr)
| OSError (err : errno) (filename : path).

Inductive event :=
| PrintRunning (cmd : list pystr)   (* print("Running:", shlex-quoted cmd) *)
| RunProcess (cmd : list pystr).    (* subprocess.run(cmd, check=True) *)

Record state := { fs : fsys; files : list path; trace : list event }.

(** [p.exists()] *)
Definition path_exists (s : state) (p : path) : bool :=
  is_dir_at (fs s) p || in_paths (files s) p.

Definition M (A : Type) : Type := state -> res error A * state.

Definition ret {A} (a : A) : M A := fun s => (Ok a, s).

Definition bind {A B} (m : M A) (f : A -> M B) : M B :=
  fun s => match m s with
           | (Ok a, s') => f a s'
           | (Err e, s') => (Err e, s')
           end.

Notation "x <- c1 ;; c2" := (bind c1 (fun x => c2))
  (at level 61, c1 at next level, right associativity).
Notation "c1 ;; c2" := (bind c1 (fun _ => c2))
  (at level 61, right associativity).

Definition throw {A} (e : error) : M A := fun s => (Err e, s).

(** [try: m  except: h] *)
Definition catch {A} (m : M A) (h : error -> M A) : M A :=
  fun s => match m s with
           | (Ok a, s') => (Ok a, s')
           | (Err e, s') => h e s'
           end.

Definition emit (ev : event) : M unit :=
  fun s => (Ok tt, {| fs := fs s; files := files s; trace := trace s ++ [ev] |}).

Definition exists_ (p : path) : M bool := fun s => (Ok (path_exists s p), s).

(** [p.is_dir()] *)
Definition is_dir (p : path) : M bool := fun s => (Ok (is_dir_at (fs s) p), s).

(** A new directory [p], made by a process outside the script. *)
Definition add_dir (p : path) : M unit :=
  fun s => (Ok tt, {| fs := p :: fs s; files := files s; trace := trace s |}).

(** The kernel's walk to the parent of a path: the first ancestor that is
    not a directory stops it, with [ENOTDIR] when it exists and [ENOENT]
    when it does not. *)
Fixpoint resolve_parents (fs : fsys) (files : list path) (l : list path) : option errno :=
  match l with
  | [] => None
  | q :: l' =>
      if in_paths fs q then resolve_parents fs files l'
      else if in_paths files q then Some ENOTDIR else Some ENOENT
  end.

(** [os.mkdir(p)] *)
Definition os_mkdir (p : path) : M unit := fun s =>
  match p_parts p with
  | [] => (Err (OSError EEXIST p), s)
  | _ :: _ =>
      match resolve_parents (fs s) (files s) (walked_parents p) with
      | Some e => (Err (OSError e p), s)
      | None =>
          if path_exists s p then (Err (OSError EEXIST p), s)
          else (Ok tt, {| fs := p :: fs s; files := files s; trace := trace s |})
      end
  end.

(** [pathlib.Path.mkdir]:
<<
    try:
        os.mkdir(self, mode)
    except FileNotFoundError:
        if not parents or self.parent == self:
            raise
        self.parent.mkdir(parents=True, exist_ok=True)
        self.mkdir(mode, parents=False, exist_ok=exist_ok)
    except OSError:
        if not exist_ok or not self.is_dir():
            raise
>>
    [mkdir_exist_ok] is the call with [parents=False, exist_ok=True]. *)
Definition mkdir_exist_ok (p : path) : M unit :=
  catch (os_mkdir p) (fun e =>
    match e with
    | OSError ENOENT _ => throw e
    | OSError _ _ => b <- is_dir p ;; if b then ret tt else throw e
    | _ => throw e
    end).

(** The call with [parents=True, exist_ok=True]; each recursive call is on
    [p.parent], which has one part less, so the number of parts of [p]
    bounds the recursion. *)
Fixpoint mkdir_rec (fuel : nat) (p : path) : M unit :=
  catch (os_mkdir p) (fun e =>
    match e with
    | OSError ENOENT _ =>
        match fuel with
        | O => throw e
        | S f =>
            if path_eqb (path_parent p) p then throw e
            else mkdir_rec f (path_parent p) ;; mkdir_exist_ok p
        end
    | OSError _ _ => b <- is_dir p ;; if b then ret tt else throw e
    | _ => throw e
    end).

(** [p.mkdir(parents=True, exist_ok=True)] *)
Definition mkdir (p : path) : M unit := mkdir_rec (List.length (p_parts p)) p.

Definition DEFAULT_MODELS : list pystr :=
  [lit "cyberagent/CAT-Translate-1.4b"; lit "cyberagent/CAT-Translate-0.8b"].
Definition DEFAULT_QBITS : list Z := [8; 4].
(** [SUPPORTED_QBITS], listed in sorted order. *)
Definition SUPPORTED_QBITS : list Z := [4; 8].

Record args := {
  models : option (list pystr);
  qbits : list Z;
  output_dir : path;
  q_group_size : option Z;
  dtype : option pystr;
  trust_remote_code : bool
}.

Section Driver.
(** [sys.executable] *)
Variable sys_executable : pystr.
(** Exit status of the external [mlx_lm convert] process for a command.
    On success the converter has written its [--mlx-path] directory. *)
Variable convert_status : list pystr -> Z.

(** [build_command] *)
Definition build_command (model : pystr) (out_dir : path) (qb : Z)
    (q_group_size : option Z) (dtype : option pystr)
    (trust_remote_code : bool) : list pystr :=
  [sys_executable; lit "-m"; lit "mlx_lm"; lit "convert"; lit "--hf-path"; model;
   lit "--mlx-path"; path_str out_dir; lit "-q"; lit "--q-bits"; int_str qb]
  ++ match q_group_size with
     | Some g => [lit "--q-group-size"; int_str g]
     | None => []
     end
  ++ match dtype with
     | Some d => [lit "--dtype"; d]
     | None => []
     end
  ++ (if trust_remote_code then [lit "--trust-remote-code"] else []).

(** [subprocess.run(cmd, check=True)] for the job writing [out_dir]. *)
Definition subprocess_run (out_dir : path) (cmd : list pystr) : M unit :=
  emit (RunProcess cmd) ;;
  let rc := convert_status cmd in
  if rc =? 0 then add_dir out_dir else throw (CalledProcessError rc cmd).

(** [args.output_dir / model / f"q{qbits}"] *)
Definition job_path (base : path) (model : pystr) (qb : Z) : path :=
  path_div (path_div base model) (lit "q" ++ int_str qb).

(** The body of the inner loop. *)
Definition job (a : args) (model : pystr) (qb : Z) : M unit :=
  let out_dir := job_path (output_dir a) model qb in
  mkdir (path_parent out_dir) ;;
  b <- exists_ out_dir ;;
  if b then throw (OutputExists out_dir)
  else
    let cmd := build_command model out_dir qb (q_group_size a) (dtype a)
                 (trust_remote_code a) in
    emit (PrintRunning cmd) ;;
    subprocess_run out_dir cmd.

Fixpoint loop_qbits (a : args) (model : pystr) (qs : list Z) : M unit :=
  match qs with
  | [] => ret tt
  | q :: qs' => job a model q ;; loop_qbits a model qs'
  end.

Fixpoint loop_models (a : args) (ms : list pystr) (qs : list Z) : M unit :=
  match ms with
  | [] => ret tt
  | m :: ms' => loop_qbits a m qs ;; loop_models a ms' qs
  end.

Definition is_supported_qbits (q : Z) : bool :=
  existsb (Z.eqb q) SUPPORTED_QBITS.

(** [args.models or DEFAULT_MODELS] *)
Definition models_or_default (a : args) : list pystr :=
  match models a with
  | None | Some [] => DEFAULT_MODELS
  | Some l => l
  end.

(** [main], after argument parsing. *)
Definition main (a : args) : M unit :=
  let ms := models_or_default a in
  let invalid_qbits := filter (fun q => negb (is_supported_qbits q)) (qbits a) in
  match invalid_qbits with
  | _ :: _ => throw (UnsupportedQbits invalid_qbits SUPPORTED_QBITS)
  | [] => loop_models a ms (qbits a)
  end.

(** The nested loops of [main] flattened: the (model, bits) combinations
    in the order the loops visit them, and the loop run over such a list. *)
Definition jobs (ms : list pystr) (qs : list Z) : list (pystr * Z) :=
  flat_map (fun m => map (fun q => (m, q)) qs) ms.

Fixpoint run_jobs (a : args) (l : list (pystr * Z)) : M unit :=
  match l with
  | [] => ret tt
  | (m, q) :: l' => job a m q ;; run_jobs a l'
  end.

(** The command of one job and the two events it leaves when it runs. *)
Definition job_cmd (a : args) (j : pystr * Z) : list pystr :=
  build_command (fst j) (job_path (output_dir a) (fst j) (snd j)) (snd j)
    (q_group_size a) (dtype a) (trust_remote_code a).

Definition job_events (a : args) (j : pystr * Z) : list event :=
  [PrintRunning (job_cmd a j); RunProcess (job_cmd a j)].

End Driver.

(** [q] is [p] or one of its ancestors. *)
Definition path_prefix (q p : path) : Prop :=
  p_root q = p_root p /\ exists suf, p_parts p = p_parts q ++ suf.

(** No path of the list is equal to, or an ancestor of, a path before it. *)
Fixpoint no_later_prefix (l : list path) : Prop :=
  match l with
  | [] => True
  | p :: l' => Forall (fun q => ~ path_prefix q p) l' /\ no_later_prefix l'
  end.

(** No entry of [files] (none of them a directory) is [d] or one of its
    ancestors; on a real file system this holds whenever [d] or something
    inside it exists. *)
Definition no_file_at_or_above (files : list path) (d : path) : Prop :=
  forall f, In f files -> ~ path_prefix f d.

End ToMlx.


(** * Properties of [cli.py] *)
Module CliFacts.
Import Cli.

Lemma pystr_eqb_eq (a b : pystr) : pystr_eqb a b = true <-> a = b.
Proof.
  unfold pystr_eqb; destruct (list_eq_dec Z.eq_dec a b); split; congruence.
Qed.


Lemma dict_get_in {V} (d : list (pystr * V)) k v :
  dict_get d k = Some v -> In v (map snd d).
Proof.
  induction d as [|[k' v'] d IH]; simpl; [discriminate|].
  destruct (pystr_eqb k k'); [intros [= ->]; auto | intros H; auto].
Qed.

Lemma dict_get_none {V} (d : list (pystr * V)) k :
  ~ In k (map fst d) -> dict_get d k = None.
Proof.
  induction d as [|[k' v'] d IH]; simpl; [reflexivity|].
  intros Hn. destruct (pystr_eqb k k') eqn:E.
  - apply pystr_eqb_eq in E. subst. exfalso. auto.
  - apply IH. auto.
Qed.

Lemma ja_neq_en : ja <> en.
Proof. vm_compute. congruence. Qed.

Lemma in_supported_iff x : in_supported x = true <-> x = ja \/ x = en.
Proof.
  unfold in_supported, SUPPORTED_LANGS. simpl.
  rewrite orb_false_r, orb_true_iff, !pystr_eqb_eq. tauto.
Qed.

Lemma in_SUPPORTED_iff x : In x SUPPORTED_LANGS <-> x = ja \/ x = en.
Proof. unfold SUPPORTED_LANGS. simpl. intuition congruence. Qed.

Lemma other_lang_en : other_lang en = ja.
Proof. reflexivity. Qed.

Lemma other_lang_ja : other_lang ja = en.
Proof. reflexivity. Qed.

Lemma normalize_some o n :
  normalize_lang o = Ok (Some n) -> n = ja \/ n = en.
Proof.
  unfold normalize_lang. destruct o as [v|]; [|discriminate].
  destruct (dict_get LANG_CODE_MAP _) as [m|] eqn:E; [|discriminate].
  intros [= <-]. apply dict_get_in in E. simpl in E. intuition.
Qed.

Lemma first_supported_ok l x :
  first_supported l = Ok x -> x = ja \/ x = en.
Proof.
  induction l as [|[y|] l IH]; simpl; try discriminate; auto.
  destruct (in_supported y) eqn:E; auto.
  intros [= <-]. apply in_supported_iff. exact E.
Qed.

Lemma other_lang_pair x : x = ja \/ x = en ->
  other_lang x <> x /\ (other_lang x = ja \/ other_lang x = en).
Proof.
  intros [-> | ->]; rewrite ?other_lang_ja, ?other_lang_en;
    split; auto; intros H; apply ja_neq_en; auto.
Qed.

(** C1: every pair returned by [resolve_languages] has two different
    members, both in the supported set; two declared sides that normalize to
    the same code make resolution fail. *)
Theorem resolve_languages_pair_invariant :
  (forall detect inp out text s t,
     resolve_languages detect inp out text = Ok (s, t) ->
     s <> t /\ In s SUPPORTED_LANGS /\ In t SUPPORTED_LANGS) /\
  (forall detect i o c text,
     normalize_lang (Some i) = Ok (Some c) ->
     normalize_lang (Some o) = Ok (Some c) ->
     resolve_languages detect (Some i) (Some o) text = Err SameLanguages).
Proof.
  split.
  - intros detect inp out text s t.
    rewrite !in_SUPPORTED_iff.
    unfold resolve_languages.
    destruct (normalize_lang inp) as [ri|] eqn:Hi; simpl; [|discriminate].
    destruct (normalize_lang out) as [ro|] eqn:Ho; simpl; [|discriminate].
    destruct ri as [i|], ro as [o|].
    + destruct (negb (in_supported i) || negb (in_supported o)) eqn:E;
        [discriminate|].
      apply orb_false_iff in E as [E1 E2].
      apply negb_false_iff, in_supported_iff in E1, E2.
      destruct (pystr_eqb i o) eqn:Eq; [discriminate|].
      intros [= <- <-]. repeat split; auto.
      intros ->. rewrite (proj2 (pystr_eqb_eq o o) eq_refl) in Eq. discriminate.
    + apply normalize_some in Hi.
      intros [= <- <-]. destruct (other_lang_pair i Hi). intuition congruence.
    + apply normalize_some in Ho.
      intros [= <- <-]. destruct (other_lang_pair o Ho). intuition congruence.
    + destruct (detect_lang detect text) as [x|] eqn:Ed; simpl; [|discriminate].
      apply first_supported_ok in Ed.
      intros [= <- <-]. destruct (other_lang_pair x Ed). intuition congruence.
  - intros detect i o c text Hi Ho.
    unfold resolve_languages. rewrite Hi, Ho. simpl.
    destruct (normalize_some _ _ Hi) as [-> | ->]; reflexivity.
Qed.

(** C1 witness: both sides declared as [en]. *)
Lemma resolve_languages_pair_invariant_witness :
  resolve_languages (fun _ _ => DetMany []) (Some (lit "en")) (Some (lit "EN"))
    [] = Err SameLanguages.
Proof.
  apply (proj2 resolve_languages_pair_invariant) with (c := en);
    vm_compute; reflexivity.
Defined.

Lemma first_supported_skip pre rest :
  Forall (fun c => lang_supported c = false) pre ->
  first_supported (pre ++ rest) = first_supported rest.
Proof.
  induction 1 as [|[y|] pre Hy _ IH]; simpl in *; auto.
  rewrite Hy. exact IH.
Qed.

(** C2: with neither side declared, the detector is asked for its top 3
    candidates; the first supported one is the source and the other supported
    code the target; when no candidate is supported, detection fails. *)
Theorem resolve_languages_detects_first_supported :
  forall detect text cands,
    detect text 3%nat = DetMany cands ->
    (forall pre l post,
       cands = pre ++ Some l :: post ->
       Forall (fun c => lang_supported c = false) pre ->
       In l SUPPORTED_LANGS ->
       resolve_languages detect None None text = Ok (l, other_lang l)) /\
    (Forall (fun c => lang_supported c = false) cands ->
     resolve_languages detect None None text = Err DetectionFailed).
Proof.
  intros detect text cands Hd. split.
  - intros pre l post -> Hpre Hl.
    unfold resolve_languages, detect_lang. simpl. rewrite Hd.
    rewrite first_supported_skip by exact Hpre. simpl.
    apply in_SUPPORTED_iff, in_supported_iff in Hl. rewrite Hl. reflexivity.
  - intros Hall.
    unfold resolve_languages, detect_lang. simpl. rewrite Hd.
    rewrite <- (app_nil_r cands), first_supported_skip by exact Hall.
    reflexivity.
Qed.

(** C2 witness: ranked candidates [fr], [en], [ja] give the pair (en, ja). *)
Lemma resolve_languages_detects_first_supported_witness :
  resolve_languages (fun _ _ => DetMany [Some (lit "fr"); Some en; Some ja])
    None None (lit "Hello") = Ok (en, ja).
Proof.
  refine (proj1 (resolve_languages_detects_first_supported
                   (fun _ _ => DetMany [Some (lit "fr"); Some en; Some ja])
                   (lit "Hello") _ eq_refl) [Some (lit "fr")] en [Some ja]
                eq_refl _ _).
  - constructor; [vm_compute; reflexivity | constructor].
  - simpl. auto.
Defined.

(** C4: when one side is declared, the detector is not consulted (any two
    detectors give the same result) and the other side is the complement
    under en <-> ja, a total involution on the supported set. *)
Theorem resolve_languages_one_side_complement :
  (forall d1 d2 i o text, (i <> None \/ o <> None) ->
     resolve_languages d1 i o text = resolve_languages d2 i o text) /\
  (forall d v text, normalize_lang (Some v) = Ok (Some en) ->
     resolve_languages d None (Some v) text = Ok (ja, en) /\
     resolve_languages d (Some v) None text = Ok (en, ja)) /\
  (forall d v text, normalize_lang (Some v) = Ok (Some ja) ->
     resolve_languages d None (Some v) text = Ok (en, ja) /\
     resolve_languages d (Some v) None text = Ok (ja, en)) /\
  (forall x, In x SUPPORTED_LANGS ->
     In (other_lang x) SUPPORTED_LANGS /\ other_lang (other_lang x) = x).
Proof.
  split; [|split; [|split]].
  - intros d1 d2 i o text Hio.
    destruct i as [v|], o as [w|]; [| | |destruct Hio; congruence];
      unfold resolve_languages, normalize_lang;
      repeat match goal with
             | |- context [dict_get LANG_CODE_MAP ?k] =>
                 destruct (dict_get LANG_CODE_MAP k)
             end; reflexivity.
  - intros d v text H. unfold resolve_languages. rewrite H. simpl. split; reflexivity.
  - intros d v text H. unfold resolve_languages. rewrite H. simpl. split; reflexivity.
  - intros x Hx. rewrite in_SUPPORTED_iff in *.
    destruct Hx as [-> | ->]; split; auto.
Qed.

(** C4 witness: [--output-lang=en] alone gives (ja, en), [--input-lang=en]
    alone gives (en, ja). *)
Lemma resolve_languages_one_side_complement_witness :
  resolve_languages (fun _ _ => DetMany []) None (Some (lit "en")) [] = Ok (ja, en) /\
  resolve_languages (fun _ _ => DetMany []) (Some (lit "en")) None [] = Ok (en, ja).
Proof.
  apply (proj1 (proj2 resolve_languages_one_side_complement)).
  vm_compute. reflexivity.
Defined.

(** C5: after [strip()] and [lower()], the tokens ja/jp/japanese/日本語
    normalize to [ja], en/eng/english to [en]; any other token fails with an
    error carrying the token and the sorted supported set. *)
Theorem normalize_lang_synonyms :
  (forall v, In (py_lower (py_strip v))
               [lit "ja"; lit "jp"; lit "japanese"; nihongo] ->
     normalize_lang (Some v) = Ok (Some (lit "ja"))) /\
  (forall v, In (py_lower (py_strip v)) [lit "en"; lit "eng"; lit "english"] ->
     normalize_lang (Some v) = Ok (Some (lit "en"))) /\
  (forall v, ~ In (py_lower (py_strip v))
                 [lit "ja"; lit "jp"; lit "japanese"; nihongo;
                  lit "en"; lit "eng"; lit "english"] ->
     normalize_lang (Some v) = Err (UnsupportedLanguage v [lit "en"; lit "ja"])).
Proof.
  split; [|split].
  - intros v H. unfold normalize_lang.
    destruct H as [H|[H|[H|[H|[]]]]]; rewrite <- H; reflexivity.
  - intros v H. unfold normalize_lang.
    destruct H as [H|[H|[H|[]]]]; rewrite <- H; reflexivity.
  - intros v H. unfold normalize_lang.
    rewrite dict_get_none by exact H. reflexivity.
Qed.

(** C5 witness: [" JaPaNeSe\t　"] normalizes to [ja], [" ENGLISH"] to
    [en], and ["fr"] is rejected. *)
Lemma normalize_lang_synonyms_witness :
  normalize_lang (Some ([32] ++ lit "JaPaNeSe" ++ [9; 12288])) = Ok (Some (lit "ja")) /\
  normalize_lang (Some (lit " ENGLISH")) = Ok (Some (lit "en")) /\
  normalize_lang (Some (lit "fr")) =
    Err (UnsupportedLanguage (lit "fr") [lit "en"; lit "ja"]).
Proof.
  destruct normalize_lang_synonyms as [A [B C]].
  split; [|split].
  - apply A. vm_compute. auto.
  - apply B. vm_compute. auto.
  - apply C. vm_compute. intuition discriminate.
Defined.

(** C9: for a supported pair the prompt is the template with the two
    language names and the text substituted, and it cannot fail; for
    (en, ja, "Hello") it is the literal instance. *)
Theorem build_prompt_substitution :
  (forall s t text, In s SUPPORTED_LANGS -> In t SUPPORTED_LANGS ->
     exists sn tn,
       dict_get LANG_NAME_MAP s = Some sn /\ dict_get LANG_NAME_MAP t = Some tn /\
       build_prompt s t text = Ok (PROMPT_TEMPLATE_format sn tn text)) /\
  build_prompt (lit "en") (lit "ja") (lit "Hello") =
    Ok (lit "Translate the following English text into Japanese." ++ [10; 10]
        ++ lit "Hello").
Proof.
  split; [|reflexivity].
  intros s t text Hs Ht. rewrite in_SUPPORTED_iff in Hs, Ht.
  destruct Hs as [-> | ->], Ht as [-> | ->]; eexists _, _;
    (split; [reflexivity | split; reflexivity]).
Qed.

(** C9 witness: the pair (ja, en). *)
Lemma build_prompt_substitution_witness :
  exists sn tn, dict_get LANG_NAME_MAP ja = Some sn /\
    dict_get LANG_NAME_MAP en = Some tn /\
    build_prompt ja en (lit "Konnichiwa") =
      Ok (PROMPT_TEMPLATE_format sn tn (lit "Konnichiwa")).
Proof.
  apply (proj1 build_prompt_substitution); simpl; auto.
Defined.

Lemma drop_while_snoc_nonempty p l c :
  p c = false -> drop_while p (l ++ [c]) <> [].
Proof.
  intros Hc. induction l as [|x l IH]; simpl.
  - rewrite Hc. discriminate.
  - destruct (p x); [exact IH | discriminate].
Qed.

Lemma drop_while_nil_iff p s : drop_while p s = [] <-> forallb p s = true.
Proof.
  induction s as [|c s IH]; simpl; [tauto|].
  destruct (p c); simpl; [exact IH | split; discriminate].
Qed.

(** [strip()] leaves nothing exactly for strings made of whitespace. *)
Lemma py_strip_nil_iff s : py_strip s = [] <-> forallb py_isspace s = true.
Proof.
  rewrite <- drop_while_nil_iff. unfold py_strip. split.
  - intros H. destruct (drop_while py_isspace s) as [|c r] eqn:E; [reflexivity|].
    exfalso. apply (f_equal (@rev Z)) in H. rewrite rev_involutive in H.
    simpl in H. revert H. apply drop_while_snoc_nonempty.
    clear -E. revert E. induction s as [|x s IH]; simpl; [discriminate|].
    destruct (py_isspace x) eqn:Ex; [exact IH|]. intros [= -> _]. exact Ex.
  - intros ->. reflexivity.
Qed.

(** C10: a [--text] value is returned unchanged, whatever it is; text read
    from a non-terminal stdin is rejected exactly when it is empty or only
    whitespace, and returned unchanged otherwise. *)
Theorem read_text_emptiness_only_for_stdin :
  (forall t tty data, read_text (Some t) tty data = Ok t) /\
  (forall data,
     (read_text None false data = Err NoTextStdin <->
      forallb py_isspace data = true) /\
     (forallb py_isspace data = false -> read_text None false data = Ok data)).
Proof.
  split; [reflexivity|].
  intros data. unfold read_text.
  destruct (py_strip data) as [|c r] eqn:E.
  - apply py_strip_nil_iff in E. rewrite E. split; [tauto | discriminate].
  - assert (Hf : forallb py_isspace data = false).
    { apply not_true_iff_false. rewrite <- py_strip_nil_iff, E. discriminate. }
    rewrite Hf. split; [split; discriminate | reflexivity].
Qed.

(** C10 witness: an empty [--text] is accepted, whitespace on stdin is
    rejected. *)
Lemma read_text_emptiness_only_for_stdin_witness :
  read_text (Some []) false (lit "x") = Ok [] /\
  read_text None false ([32; 9; 10] ++ [12288]) = Err NoTextStdin.
Proof.
  destruct read_text_emptiness_only_for_stdin as [A B]. split.
  - apply A.
  - apply (proj1 (B _)). vm_compute. reflexivity.
Defined.

Lemma float_truthy_iff x : float_truthy x = true <-> ~ (x == 0)%Q.
Proof.
  unfold float_truthy. rewrite negb_true_iff, <- not_true_iff_false, Qeq_bool_iff.
  tauto.
Qed.

Lemma float_gt_iff x y : float_gt x y = true <-> (y < x)%Q.
Proof.
  unfold float_gt. rewrite negb_true_iff, <- not_true_iff_false, Qle_bool_iff.
  split; [apply Qnot_le_lt | apply Qlt_not_le].
Qed.

Lemma float_lt_iff x y : float_lt x y = true <-> (x < y)%Q.
Proof.
  unfold float_lt. rewrite negb_true_iff, <- not_true_iff_false, Qle_bool_iff.
  split; [apply Qnot_le_lt | apply Qlt_not_le].
Qed.

(** C3, as stated, fails: [--top-p 0] satisfies top-p < 1.0, yet with
    temperature 0 and top-k 0 no sampler is built, a float [0.0] being
    false in Python. *)
Lemma run_mlx_sampler_claim_counterexample :
  ~ (forall ct prompt a,
       g_sampler (run_mlx ct prompt a) <> None <->
       ((0 < temperature a)%Q \/ (top_p a < 1)%Q \/ 0 < top_k a)).
Proof.
  intros H.
  set (a := {| temperature := 0; top_p := 0; top_k := 0; max_new_tokens := 512;
               no_chat_template := false |}).
  apply (proj2 (H None [] a)); [right; left; reflexivity | reflexivity].
Qed.

(** C3, amended: a sampler is built exactly when temperature > 0, or
    top-p is nonzero and below 1.0, or top-k > 0. *)
Theorem run_mlx_sampler_iff :
  forall ct prompt a,
    g_sampler (run_mlx ct prompt a) <> None <->
    ((0 < temperature a)%Q \/ (~ (top_p a == 0)%Q /\ (top_p a < 1)%Q)
     \/ 0 < top_k a).
Proof.
  intros ct prompt a. unfold run_mlx. simpl.
  transitivity (wants_sampler a = true).
  { destruct (wants_sampler a); split; congruence. }
  unfold wants_sampler.
  rewrite !orb_true_iff, !andb_true_iff, !float_truthy_iff, float_gt_iff,
    float_lt_iff, negb_true_iff, <- not_true_iff_false, Z.eqb_eq, Z.gtb_lt.
  split.
  - intros [[[_ H]|[H1 H2]]|[_ H]]; auto.
  - intros [H|[[H1 H2]|H]]; [left; left | left; right | right]; split; auto.
    + intros E. rewrite E in H. apply (Qlt_irrefl 0). exact H.
    + lia.
Qed.

(** ** Further properties of [cli.py] *)

Lemma normalize_err o e :
  normalize_lang o = Err e -> exists v sup, e = UnsupportedLanguage v sup.
Proof.
  unfold normalize_lang. destruct o as [v|]; [|discriminate].
  destruct (dict_get LANG_CODE_MAP _); intros [= <-]; eauto.
Qed.

Lemma first_supported_err l e : first_supported l = Err e -> e = DetectionFailed.
Proof.
  induction l as [|[y|] l IH]; simpl; auto; [congruence|].
  destruct (in_supported y); [discriminate | exact IH].
Qed.

Lemma resolve_ok_codes detect inp out text s t :
  resolve_languages detect inp out text = Ok (s, t) ->
  (s = ja \/ s = en) /\ (t = ja \/ t = en) /\ s <> t.
Proof.
  unfold resolve_languages.
  destruct (normalize_lang inp) as [ri|] eqn:Hi; simpl; [|discriminate].
  destruct (normalize_lang out) as [ro|] eqn:Ho; simpl; [|discriminate].
  destruct ri as [i|], ro as [o|].
  - destruct (negb (in_supported i) || negb (in_supported o)) eqn:E; [discriminate|].
    apply orb_false_iff in E as [E1 E2].
    apply negb_false_iff, in_supported_iff in E1, E2.
    destruct (pystr_eqb i o) eqn:Eq; [discriminate|].
    intros [= <- <-]. repeat split; auto.
    intros ->. rewrite (proj2 (pystr_eqb_eq o o) eq_refl) in Eq. discriminate.
  - apply normalize_some in Hi. intros [= <- <-].
    destruct (other_lang_pair i Hi). intuition congruence.
  - apply normalize_some in Ho. intros [= <- <-].
    destruct (other_lang_pair o Ho). intuition congruence.
  - destruct (detect_lang detect text) as [x|] eqn:Ed; simpl; [|discriminate].
    apply first_supported_ok in Ed. intros [= <- <-].
    destruct (other_lang_pair x Ed). intuition congruence.
Qed.

(** When the detector answers with a single result dict instead of a list,
    its language is used if supported and detection fails otherwise. *)
Theorem resolve_languages_single_detection :
  forall detect text l,
    detect text 3%nat = DetOne l ->
    (forall x, l = Some x -> In x SUPPORTED_LANGS ->
       resolve_languages detect None None text = Ok (x, other_lang x)) /\
    (lang_supported l = false ->
       resolve_languages detect None None text = Err DetectionFailed).
Proof.
  intros detect text l Hd. unfold resolve_languages, detect_lang. simpl.
  rewrite Hd. split.
  - intros x -> Hx. apply in_SUPPORTED_iff, in_supported_iff in Hx.
    simpl. rewrite Hx. reflexivity.
  - destruct l as [x|]; simpl; [|reflexivity].
    intros Hx. rewrite Hx. reflexivity.
Qed.

Lemma resolve_languages_single_detection_witness :
  resolve_languages (fun _ _ => DetOne (Some (lit "ja"))) None None [] = Ok (ja, en) /\
  resolve_languages (fun _ _ => DetOne (Some (lit "ko"))) None None [] =
    Err DetectionFailed.
Proof.
  split.
  - exact (proj1 (resolve_languages_single_detection
                    (fun _ _ => DetOne (Some (lit "ja"))) [] _ eq_refl)
                 ja eq_refl ltac:(simpl; auto)).
  - exact (proj2 (resolve_languages_single_detection
                    (fun _ _ => DetOne (Some (lit "ko"))) [] _ eq_refl)
                 ltac:(vm_compute; reflexivity)).
Defined.

(** Normalization is idempotent: a canonical code it returns normalizes to
    itself. *)
Theorem normalize_lang_idempotent :
  forall v n, normalize_lang (Some v) = Ok (Some n) ->
    normalize_lang (Some n) = Ok (Some n).
Proof.
  intros v n H. destruct (normalize_some _ _ H) as [-> | ->]; reflexivity.
Qed.

Lemma normalize_lang_idempotent_witness :
  normalize_lang (Some (lit "ja")) = Ok (Some (lit "ja")).
Proof.
  exact (normalize_lang_idempotent nihongo (lit "ja") eq_refl).
Defined.

(** The branch raising "Only English and Japanese are supported." is
    unreachable: resolution never fails with that error. *)
Theorem resolve_languages_never_only_en_ja :
  forall detect i o text,
    resolve_languages detect i o text <> Err OnlyEnglishJapanese.
Proof.
  intros detect i o text. unfold resolve_languages.
  destruct (normalize_lang i) as [ri|e] eqn:Hi; simpl;
    [|destruct (normalize_err _ _ Hi) as [v [sup ->]]; discriminate].
  destruct (normalize_lang o) as [ro|e] eqn:Ho; simpl;
    [|destruct (normalize_err _ _ Ho) as [v [sup ->]]; discriminate].
  destruct ri as [x|], ro as [y|]; try discriminate.
  - apply normalize_some in Hi. apply normalize_some in Ho.
    assert (Hx : in_supported x = true) by (apply in_supported_iff; exact Hi).
    assert (Hy : in_supported y = true) by (apply in_supported_iff; exact Ho).
    rewrite Hx, Hy. simpl. destruct (pystr_eqb x y); discriminate.
  - destruct (detect_lang detect text) as [z|e] eqn:Ed; simpl; [discriminate|].
    apply first_supported_err in Ed. subst. discriminate.
Qed.

(** Without chat template, a successful run asks the model for the
    template instantiated with two different language names, English and
    Japanese in some order, followed by the input text. *)
Theorem main_prompt_names :
  forall detect t tty d i o a req text,
    read_text t tty d = Ok text ->
    main detect None t tty d i o a = Ok req ->
    exists sn tn,
      ((sn = lit "English" /\ tn = lit "Japanese") \/
       (sn = lit "Japanese" /\ tn = lit "English")) /\
      g_prompt_text req = PROMPT_TEMPLATE_format sn tn text.
Proof.
  intros detect t tty d i o a req text Hr. unfold main. rewrite Hr. simpl.
  destruct (resolve_languages detect i o text) as [[s1 t1]|e] eqn:Hl; simpl;
    [|discriminate].
  destruct (resolve_ok_codes _ _ _ _ _ _ Hl) as [Hs [Ht Hne]].
  destruct Hs as [-> | ->], Ht as [-> | ->]; try congruence;
    intros [= <-]; eexists _, _; split; [|reflexivity| |reflexivity]; auto.
Qed.

Lemma main_prompt_names_witness :
  exists sn tn,
    ((sn = lit "English" /\ tn = lit "Japanese") \/
     (sn = lit "Japanese" /\ tn = lit "English")) /\
    g_prompt_text (run_mlx None
      (PROMPT_TEMPLATE_format (lit "English") (lit "Japanese") (lit "Hi"))
      {| temperature := 0; top_p := 1; top_k := 0; max_new_tokens := 512;
         no_chat_template := false |}) = PROMPT_TEMPLATE_format sn tn (lit "Hi").
Proof.
  apply (main_prompt_names (fun _ _ => DetMany []) (Some (lit "Hi")) false []
           (Some (lit "en")) None
           {| temperature := 0; top_p := 1; top_k := 0; max_new_tokens := 512;
              no_chat_template := false |}); reflexivity.
Defined.

End CliFacts.

(** * Properties of [to_mlx.py] *)
Module ToMlxFacts.
Import ToMlx.

Section Facts.
Variable sys_executable : pystr.
Variable convert_status : list pystr -> Z.

Local Abbreviation job := (job sys_executable convert_status).
Local Abbreviation run_jobs := (run_jobs sys_executable convert_status).
Local Abbreviation loop_qbits := (loop_qbits sys_executable convert_status).
Local Abbreviation loop_models := (loop_models sys_executable convert_status).
Local Abbreviation main := (main sys_executable convert_status).
Local Abbreviation job_events := (job_events sys_executable).
Local Abbreviation job_cmd := (job_cmd sys_executable).

(** A computation keeps the entries that are not directories, only adds
    directories and only appends events. *)
Definition grows {A} (m : M A) : Prop :=
  forall s r s', m s = (r, s') ->
    incl (fs s) (fs s') /\ files s' = files s /\ exists evs, trace s' = trace s ++ evs.

Ltac grows_same :=
  split; [apply incl_refl | split; [reflexivity | exists []; rewrite app_nil_r; reflexivity]].

Lemma grows_ret {A} (x : A) : grows (ret x).
Proof. intros s r s' [= _ <-]. grows_same. Qed.

Lemma grows_throw {A} e : grows (@throw A e).
Proof. intros s r s' [= _ <-]. grows_same. Qed.

Lemma grows_emit ev : grows (emit ev).
Proof.
  intros s r s' [= _ <-]. simpl. split; [apply incl_refl | split; [reflexivity | eauto]].
Qed.

Lemma grows_exists p : grows (exists_ p).
Proof. intros s r s' [= _ <-]. grows_same. Qed.

Lemma grows_is_dir p : grows (is_dir p).
Proof. intros s r s' [= _ <-]. grows_same. Qed.

Lemma grows_add_dir p : grows (add_dir p).
Proof.
  intros s r s' [= _ <-]. simpl.
  split; [apply incl_tl, incl_refl | split; [reflexivity | exists []; rewrite app_nil_r; reflexivity]].
Qed.

Lemma grows_os_mkdir p : grows (os_mkdir p).
Proof.
  intros s r s'. unfold os_mkdir.
  destruct (p_parts p); [intros [= _ <-]; grows_same|].
  destruct (resolve_parents _ _ _); [intros [= _ <-]; grows_same|].
  destruct (path_exists s p); intros [= _ <-]; [grows_same|]. simpl.
  split; [apply incl_tl, incl_refl | split; [reflexivity | exists []; rewrite app_nil_r; reflexivity]].
Qed.

Lemma grows_bind {A B} (m : M A) (f : A -> M B) :
  grows m -> (forall x, grows (f x)) -> grows (bind m f).
Proof.
  intros Hm Hf s r s'. unfold bind.
  destruct (m s) as [[x|e] s1] eqn:E.
  - intros H. destruct (Hm _ _ _ E) as [I1 [F1 [e1 T1]]].
    destruct (Hf x _ _ _ H) as [I2 [F2 [e2 T2]]]. split; [|split].
    + eapply incl_tran; eauto.
    + congruence.
    + exists (e1 ++ e2). rewrite T2, T1, app_assoc. reflexivity.
  - intros [= _ <-]. eapply Hm. exact E.
Qed.

Lemma grows_catch {A} (m : M A) (h : error -> M A) :
  grows m -> (forall e, grows (h e)) -> grows (catch m h).
Proof.
  intros Hm Hh s r s'. unfold catch.
  destruct (m s) as [[x|e] s1] eqn:E.
  - intros [= _ <-]. eapply Hm. exact E.
  - intros H. destruct (Hm _ _ _ E) as [I1 [F1 [e1 T1]]].
    destruct (Hh e _ _ _ H) as [I2 [F2 [e2 T2]]]. split; [|split].
    + eapply incl_tran; eauto.
    + congruence.
    + exists (e1 ++ e2). rewrite T2, T1, app_assoc. reflexivity.
Qed.

Create HintDb grows_db.
Hint Resolve grows_ret grows_throw grows_emit grows_exists grows_is_dir grows_add_dir
  grows_os_mkdir grows_bind grows_catch : grows_db.

Lemma grows_fallback p e :
  grows (b <- is_dir p ;; if b then ret tt else throw e).
Proof. apply grows_bind; [apply grows_is_dir | intros []; auto with grows_db]. Qed.

Hint Resolve grows_fallback : grows_db.

Lemma grows_mkdir_exist_ok p : grows (mkdir_exist_ok p).
Proof.
  unfold mkdir_exist_ok. apply grows_catch; [apply grows_os_mkdir|].
  intros [inv sup|p0|rc cmd|[] f]; auto with grows_db.
Qed.

Lemma grows_mkdir_rec n p : grows (mkdir_rec n p).
Proof.
  revert p. induction n as [|n IH]; intros p; cbn [mkdir_rec];
    apply grows_catch; try apply grows_os_mkdir;
    intros [inv sup|p0|rc cmd|[] f]; auto with grows_db.
  destruct (path_eqb _ _); [apply grows_throw|].
  apply grows_bind; [apply IH | intros; apply grows_mkdir_exist_ok].
Qed.

Lemma grows_mkdir p : grows (mkdir p).
Proof. apply grows_mkdir_rec. Qed.

Lemma grows_job a m q : grows (job a m q).
Proof.
  unfold ToMlx.job, subprocess_run.
  apply grows_bind; [apply grows_mkdir | intros []].
  apply grows_bind; [apply grows_exists | intros b].
  destruct b; [apply grows_throw|].
  apply grows_bind; [apply grows_emit | intros []].
  apply grows_bind; [apply grows_emit | intros []].
  destruct (_ =? 0); [apply grows_add_dir | apply grows_throw].
Qed.

Lemma grows_loop_qbits a m qs : grows (loop_qbits a m qs).
Proof.
  induction qs as [|q qs IH]; simpl; [apply grows_ret|].
  apply grows_bind; [apply grows_job | intros; exact IH].
Qed.

Lemma grows_loop_models a ms qs : grows (loop_models a ms qs).
Proof.
  induction ms as [|m ms IH]; simpl; [apply grows_ret|].
  apply grows_bind; [apply grows_loop_qbits | intros; exact IH].
Qed.

Lemma grows_main a : grows (main a).
Proof.
  unfold ToMlx.main.
  destruct (filter _ (qbits a)); [apply grows_loop_models | apply grows_throw].
Qed.

Lemma grows_run_jobs a l : grows (run_jobs a l).
Proof.
  induction l as [|[m q] l IH]; simpl;
    [apply grows_ret | apply grows_bind; [apply grows_job | intros; exact IH]].
Qed.

Lemma bind_ext {A B} (m1 m2 : M A) (f g : A -> M B) s :
  (forall s0, m1 s0 = m2 s0) -> (forall x s0, f x s0 = g x s0) ->
  bind m1 f s = bind m2 g s.
Proof.
  intros Hm Hf. unfold bind. rewrite Hm.
  destruct (m2 s) as [[x|e] s1]; auto.
Qed.

Lemma bind_assoc {A B C} (m : M A) (f : A -> M B) (g : B -> M C) s :
  bind (bind m f) g s = bind m (fun x => bind (f x) g) s.
Proof.
  unfold bind. destruct (m s) as [[x|e] s1]; reflexivity.
Qed.

Lemma loop_qbits_run_jobs a m qs s :
  loop_qbits a m qs s = run_jobs a (map (fun q => (m, q)) qs) s.
Proof.
  revert s. induction qs as [|q qs IH]; intros s; simpl; [reflexivity|].
  apply bind_ext; auto.
Qed.

Lemma run_jobs_app a l1 l2 s :
  run_jobs a (l1 ++ l2) s = bind (run_jobs a l1) (fun _ => run_jobs a l2) s.
Proof.
  revert s. induction l1 as [|[m q] l1 IH]; intros s; simpl; [reflexivity|].
  rewrite bind_assoc. apply bind_ext; auto.
Qed.

Lemma loop_models_run_jobs a ms qs s :
  loop_models a ms qs s = run_jobs a (jobs ms qs) s.
Proof.
  revert s. induction ms as [|m ms IH]; intros s; simpl; [reflexivity|].
  unfold jobs. simpl. fold (jobs ms qs).
  rewrite run_jobs_app. apply bind_ext; [apply loop_qbits_run_jobs | auto].
Qed.

Lemma invalid_qbits_nil qs :
  Forall (fun q => In q SUPPORTED_QBITS) qs ->
  filter (fun q => negb (is_supported_qbits q)) qs = [].
Proof.
  induction 1 as [|q qs Hq _ IH]; simpl; [reflexivity|].
  unfold is_supported_qbits. simpl in *.
  destruct Hq as [<-|[<-|[]]]; simpl; exact IH.
Qed.

Lemma main_run_jobs a s :
  Forall (fun q => In q SUPPORTED_QBITS) (qbits a) ->
  main a s = run_jobs a (jobs (models_or_default a) (qbits a)) s.
Proof.
  intros H. unfold ToMlx.main. rewrite invalid_qbits_nil by exact H.
  apply loop_models_run_jobs.
Qed.

(** *** Paths and prefixes *)

Lemma path_eqb_eq x y : path_eqb x y = true <-> x = y.
Proof.
  destruct x as [rx px], y as [ry py]. unfold path_eqb. simpl.
  rewrite andb_true_iff, eqb_true_iff.
  destruct (list_eq_dec (list_eq_dec Z.eq_dec) px py); split;
    intros H; try split; try congruence; destruct H; congruence.
Qed.

Lemma in_paths_true l p : in_paths l p = true <-> In p l.
Proof.
  unfold in_paths. rewrite existsb_exists. split.
  - intros [x [Hx E]]. apply path_eqb_eq in E. subst. exact Hx.
  - intros H. exists p. split; [exact H | apply path_eqb_eq; reflexivity].
Qed.

Lemma is_dir_at_true fs0 p :
  is_dir_at fs0 p = true <-> p_parts p = [] \/ In p fs0.
Proof.
  unfold is_dir_at. destruct (p_parts p) eqn:E.
  - split; auto.
  - rewrite in_paths_true. split; [auto | intros [H|H]; [discriminate | exact H]].
Qed.

Lemma path_exists_iff s p :
  path_exists s p = true <-> (p_parts p = [] \/ In p (fs s)) \/ In p (files s).
Proof.
  unfold path_exists. rewrite orb_true_iff, is_dir_at_true, in_paths_true. reflexivity.
Qed.

Lemma path_exists_false_parts s p : path_exists s p = false -> p_parts p <> [].
Proof.
  intros H E. rewrite <- not_true_iff_false, path_exists_iff in H. auto.
Qed.

Lemma in_mkdir_parents x r fs0 :
  In x (mkdir_parents r fs0) <->
  (p_root x = p_root r /\ p_parts x <> [] /\
   exists suf, p_parts r = p_parts x ++ suf) \/ In x fs0.
Proof.
  unfold mkdir_parents. rewrite in_app_iff, in_map_iff. split.
  - intros [[i [<- Hi]]|H]; [left|right; exact H].
    apply in_seq in Hi. simpl. repeat split.
    + intros E. apply (f_equal (@List.length pystr)) in E.
      rewrite length_firstn in E. simpl in E. lia.
    + exists (skipn i (p_parts r)). symmetry. apply firstn_skipn.
  - intros [[Hr [Hn [suf Hs]]]|H]; [left|right; exact H].
    exists (List.length (p_parts x)). split.
    + destruct x as [rx px]. simpl in *. rewrite Hs, firstn_app, firstn_all,
        Nat.sub_diag. simpl. rewrite app_nil_r. congruence.
    + apply in_seq. rewrite Hs, length_app.
      destruct (p_parts x); [congruence|]. simpl. lia.
Qed.

Lemma removelast_length (l : list pystr) :
  l <> [] -> List.length (removelast l) = (List.length l - 1)%nat.
Proof.
  intros Hn. pose proof (@app_removelast_last _ l [] Hn) as E.
  apply (f_equal (@List.length pystr)) in E. rewrite length_app in E.
  simpl in E. lia.
Qed.

Lemma path_prefix_refl p : path_prefix p p.
Proof. split; [reflexivity | exists []; rewrite app_nil_r; reflexivity]. Qed.

Lemma not_prefix_parent p : p_parts p <> [] -> ~ path_prefix p (path_parent p).
Proof.
  intros Hn [_ [suf Hs]]. simpl in Hs.
  apply (f_equal (@List.length pystr)) in Hs.
  rewrite length_app, removelast_length in Hs by exact Hn.
  destruct (p_parts p); [congruence|]. simpl in Hs. lia.
Qed.

Lemma parent_neq p : p_parts p <> [] -> path_parent p <> p.
Proof.
  intros Hn E. apply (not_prefix_parent p Hn). rewrite E. apply path_prefix_refl.
Qed.

Lemma prefix_of_parent x p : path_prefix x (path_parent p) -> path_prefix x p.
Proof.
  intros [Hr [suf Hs]]. split; [exact Hr|]. simpl in Hs.
  destruct (p_parts p) as [|y ys] eqn:E.
  - simpl in Hs. symmetry in Hs. apply app_eq_nil in Hs. destruct Hs as [-> ->].
    exists []. reflexivity.
  - exists (suf ++ [last (y :: ys) y]).
    rewrite app_assoc, <- Hs. apply app_removelast_last. discriminate.
Qed.

Lemma prefix_cases x p :
  path_prefix x p ->
  x = p \/ (p_root x = p_root p /\ exists suf, suf <> [] /\ p_parts p = p_parts x ++ suf).
Proof.
  intros [Hr [suf Hs]]. destruct suf as [|c suf].
  - left. destruct x as [rx px], p as [rp pp]. simpl in *.
    rewrite app_nil_r in Hs. congruence.
  - right. split; [exact Hr|]. exists (c :: suf). split; [discriminate | exact Hs].
Qed.

Lemma strict_prefix_parent x p suf :
  p_root x = p_root p -> suf <> [] -> p_parts p = p_parts x ++ suf ->
  path_prefix x (path_parent p).
Proof.
  intros Hr Hn Hs. split; [exact Hr|]. simpl. rewrite Hs, removelast_app by exact Hn.
  exists (removelast suf). reflexivity.
Qed.

Lemma in_walked_parents x p :
  In x (walked_parents p) <->
  p_root x = p_root p /\ p_parts x <> [] /\
  exists suf, suf <> [] /\ p_parts p = p_parts x ++ suf.
Proof.
  unfold walked_parents, prefix_path. rewrite in_map_iff. split.
  - intros [i [<- Hi]]. apply in_seq in Hi. simpl. split; [reflexivity|]. split.
    + intros E. apply (f_equal (@List.length pystr)) in E.
      rewrite length_firstn in E. simpl in E. lia.
    + exists (skipn i (p_parts p)). split.
      * intros E. apply (f_equal (@List.length pystr)) in E.
        rewrite length_skipn in E. simpl in E. lia.
      * symmetry. apply firstn_skipn.
  - intros [Hr [Hn [suf [Hsuf Hs]]]]. exists (List.length (p_parts x)). split.
    + destruct x as [rx px]. simpl in *. rewrite Hs, firstn_app, firstn_all,
        Nat.sub_diag. simpl. rewrite app_nil_r. congruence.
    + apply in_seq. rewrite Hs, length_app.
      destruct (p_parts x); [congruence|]. destruct suf; [congruence|]. simpl. lia.
Qed.

Lemma walked_prefix q p : In q (walked_parents p) -> path_prefix q p.
Proof.
  rewrite in_walked_parents. intros [Hr [_ [suf [_ Hs]]]]. split; eauto.
Qed.

(** A non-empty prefix of [p] is [p] or one of the parents walked to it. *)
Lemma prefix_walked x p :
  path_prefix x p -> p_parts x <> [] -> x = p \/ In x (walked_parents p).
Proof.
  intros H Hn. destruct (prefix_cases x p H) as [E|[Hr [suf [Hsuf Hs]]]]; [left; exact E|].
  right. apply in_walked_parents. eauto.
Qed.

Lemma walked_parent q p : In q (walked_parents p) -> path_prefix q (path_parent p).
Proof.
  rewrite in_walked_parents. intros [Hr [_ [suf [Hsuf Hs]]]].
  exact (strict_prefix_parent q p suf Hr Hsuf Hs).
Qed.

(** *** [os.mkdir] and [Path.mkdir] *)

Lemma resolve_parents_none fs0 fl l :
  resolve_parents fs0 fl l = None <-> Forall (fun q => In q fs0) l.
Proof.
  induction l as [|q l IH]; simpl; [split; auto|].
  destruct (in_paths fs0 q) eqn:E.
  - rewrite IH. apply in_paths_true in E. split.
    + intros H. constructor; assumption.
    + intros H. exact (Forall_inv_tail H).
  - split; [destruct (in_paths fl q); discriminate|].
    intros H. apply Forall_inv in H. apply in_paths_true in H. congruence.
Qed.

Lemma resolve_parents_some fs0 fl l e :
  resolve_parents fs0 fl l = Some e ->
  (e = ENOTDIR /\ exists q, In q l /\ In q fl) \/ e = ENOENT.
Proof.
  induction l as [|q l IH]; simpl; [discriminate|].
  destruct (in_paths fs0 q).
  - intros H. destruct (IH H) as [[-> [q' [Hq Hf]]]| ->]; [|right; reflexivity].
    left. split; [reflexivity|]. exists q'. split; [right|]; assumption.
  - destruct (in_paths fl q) eqn:E; intros [= <-]; [left|right; reflexivity].
    split; [reflexivity|]. exists q. split; [left; reflexivity | apply in_paths_true; exact E].
Qed.

Lemma os_mkdir_cases p s r s' :
  os_mkdir p s = (r, s') ->
  (r = Ok tt /\ s' = {| fs := p :: fs s; files := files s; trace := trace s |} /\
   p_parts p <> [] /\ path_exists s p = false) \/
  (exists e, r = Err (OSError e p) /\ s' = s).
Proof.
  unfold os_mkdir.
  destruct (p_parts p) eqn:Ep; [intros [= <- <-]; right; eauto|].
  destruct (resolve_parents _ _ _); [intros [= <- <-]; right; eauto|].
  destruct (path_exists s p) eqn:E; intros [= <- <-]; [right; eauto|].
  left. repeat split. congruence.
Qed.

Lemma os_mkdir_root p s :
  p_parts p = [] -> os_mkdir p s = (Err (OSError EEXIST p), s).
Proof. intros E. unfold os_mkdir. rewrite E. reflexivity. Qed.

Lemma os_mkdir_walk_err p s e :
  p_parts p <> [] -> resolve_parents (fs s) (files s) (walked_parents p) = Some e ->
  os_mkdir p s = (Err (OSError e p), s).
Proof.
  intros Hn R. unfold os_mkdir. rewrite R. destruct (p_parts p); [congruence | reflexivity].
Qed.

Lemma os_mkdir_walk_ok p s :
  p_parts p <> [] -> resolve_parents (fs s) (files s) (walked_parents p) = None ->
  os_mkdir p s =
    if path_exists s p then (Err (OSError EEXIST p), s)
    else (Ok tt, {| fs := p :: fs s; files := files s; trace := trace s |}).
Proof.
  intros Hn R. unfold os_mkdir. rewrite R. destruct (p_parts p); [congruence | reflexivity].
Qed.

(** The [except OSError] branch: [p] already a directory is no error. *)
Lemma fallback_cases p e s r s' :
  (b <- is_dir p ;; if b then ret tt else throw e) s = (r, s') ->
  s' = s /\ (r = Ok tt \/ r = Err e).
Proof.
  unfold bind, is_dir, ret, throw.
  destruct (is_dir_at (fs s) p); intros [= <- <-]; auto.
Qed.

Lemma fallback_dir p e s :
  is_dir_at (fs s) p = true ->
  (b <- is_dir p ;; if b then ret tt else throw e) s = (Ok tt, s).
Proof. intros H. unfold bind, is_dir, ret. rewrite H. reflexivity. Qed.

(** What [p.mkdir(exist_ok=True)] may do: add [p] and nothing else, and
    fail only with an [OSError] on [p]. *)
Lemma mkdir_exist_ok_frame p s r s' :
  mkdir_exist_ok p s = (r, s') ->
  files s' = files s /\ trace s' = trace s /\
  (forall x, In x (fs s') -> In x (fs s) \/ (x = p /\ p_parts p <> [])) /\
  (r = Ok tt \/ exists e, r = Err (OSError e p)).
Proof.
  unfold mkdir_exist_ok, catch.
  destruct (os_mkdir p s) as [[[]|e] s1] eqn:E; apply os_mkdir_cases in E.
  - destruct E as [[_ [-> [Hn _]]]|[e [? _]]]; [|discriminate].
    intros [= <- <-]. simpl. split; [reflexivity|]. split; [reflexivity|].
    split; [|left; reflexivity]. intros x [->|H]; auto.
  - destruct E as [[? _]|[e0 [[= ->] ->]]]; [discriminate|].
    destruct e0; cbv beta iota.
    + intros [= <- <-]. repeat split; eauto.
    + intros H. destruct (fallback_cases _ _ _ _ _ H) as [-> [-> | ->]];
        repeat split; eauto.
    + intros H. destruct (fallback_cases _ _ _ _ _ H) as [-> [-> | ->]];
        repeat split; eauto.
Qed.

(** What [p.mkdir(parents=True, exist_ok=True)] may do: add non-empty
    prefixes of [p], and fail only with an [OSError] on such a prefix. *)
Lemma mkdir_rec_frame n p s r s' :
  mkdir_rec n p s = (r, s') ->
  files s' = files s /\ trace s' = trace s /\
  (forall x, In x (fs s') -> In x (fs s) \/ (path_prefix x p /\ p_parts x <> [])) /\
  (r = Ok tt \/ exists e f, r = Err (OSError e f) /\ path_prefix f p).
Proof.
  revert p s r s'. induction n as [|n IH]; intros p s r s'; cbn [mkdir_rec]; unfold catch;
    destruct (os_mkdir p s) as [[[]|e] s1] eqn:E; apply os_mkdir_cases in E.
  - destruct E as [[_ [-> [Hn _]]]|[e [? _]]]; [|discriminate].
    intros [= <- <-]. simpl. split; [reflexivity|]. split; [reflexivity|].
    split; [|left; reflexivity].
    intros x [<-|H]; [right; split; [apply path_prefix_refl | exact Hn] | left; exact H].
  - destruct E as [[? _]|[e0 [[= ->] ->]]]; [discriminate|].
    destruct e0; cbv beta iota.
    + intros [= <- <-]. repeat split; eauto 6 using path_prefix_refl.
    + intros H. destruct (fallback_cases _ _ _ _ _ H) as [-> [-> | ->]];
        repeat split; eauto 6 using path_prefix_refl.
    + intros H. destruct (fallback_cases _ _ _ _ _ H) as [-> [-> | ->]];
        repeat split; eauto 6 using path_prefix_refl.
  - destruct E as [[_ [-> [Hn _]]]|[e [? _]]]; [|discriminate].
    intros [= <- <-]. simpl. split; [reflexivity|]. split; [reflexivity|].
    split; [|left; reflexivity].
    intros x [<-|H]; [right; split; [apply path_prefix_refl | exact Hn] | left; exact H].
  - destruct E as [[? _]|[e0 [[= ->] ->]]]; [discriminate|].
    destruct e0; cbv beta iota.
    + destruct (path_eqb (path_parent p) p).
      { intros [= <- <-]. repeat split; eauto 6 using path_prefix_refl. }
      unfold bind.
      destruct (mkdir_rec n (path_parent p) s) as [[[]|e'] s2] eqn:E2;
        destruct (IH _ _ _ _ E2) as [F2 [T2 [N2 R2]]].
      * intros H. destruct (mkdir_exist_ok_frame _ _ _ _ H) as [F3 [T3 [N3 R3]]].
        split; [congruence|]. split; [congruence|]. split.
        -- intros x Hx. destruct (N3 x Hx) as [Hx2|[-> Hn]].
           ++ destruct (N2 x Hx2) as [H0|[Hp Hn]]; [left; exact H0|].
              right. split; [apply prefix_of_parent; exact Hp | exact Hn].
           ++ right. split; [apply path_prefix_refl | exact Hn].
        -- destruct R3 as [->|[e0 ->]]; [left; reflexivity|].
           right. exists e0, p. split; [reflexivity | apply path_prefix_refl].
      * intros [= <- <-]. split; [exact F2|]. split; [exact T2|]. split.
        -- intros x Hx. destruct (N2 x Hx) as [H0|[Hp Hn]]; [left; exact H0|].
           right. split; [apply prefix_of_parent; exact Hp | exact Hn].
        -- destruct R2 as [?|[e0 [f [He Hf]]]]; [discriminate|].
           right. exists e0, f. split; [exact He | apply prefix_of_parent; exact Hf].
    + intros H. destruct (fallback_cases _ _ _ _ _ H) as [-> [-> | ->]];
        repeat split; eauto 6 using path_prefix_refl.
    + intros H. destruct (fallback_cases _ _ _ _ _ H) as [-> [-> | ->]];
        repeat split; eauto 6 using path_prefix_refl.
Qed.

(** [os.mkdir(p)] under the [except] handler of [Path.mkdir], when every
    parent on the way is a directory and [p] is not a file: [p] is a
    directory afterwards. *)
Lemma catch_os_mkdir_ok p s (h : error -> M unit) :
  p_parts p <> [] ->
  Forall (fun q => In q (fs s)) (walked_parents p) ->
  ~ In p (files s) ->
  h (OSError EEXIST p) = (b <- is_dir p ;; if b then ret tt else throw (OSError EEXIST p)) ->
  exists s', catch (os_mkdir p) h s = (Ok tt, s') /\ In p (fs s') /\ incl (fs s) (fs s').
Proof.
  intros Hn Hw Hf Hh. unfold catch.
  rewrite os_mkdir_walk_ok by (auto; apply (proj2 (resolve_parents_none _ _ _)); exact Hw).
  destruct (path_exists s p) eqn:E.
  - assert (Hd : In p (fs s)).
    { apply path_exists_iff in E. destruct E as [[E|E]|E]; tauto. }
    rewrite Hh, fallback_dir by (apply is_dir_at_true; auto).
    exists s. split; [reflexivity|]. split; [exact Hd | apply incl_refl].
  - eexists. split; [reflexivity|]. simpl. split; [left; reflexivity | apply incl_tl, incl_refl].
Qed.

(** [p.mkdir(parents=True, exist_ok=True)] succeeds when no file lies at or
    above [p], and leaves every non-empty prefix of [p] a directory. *)
Lemma mkdir_rec_ok n p s :
  List.length (p_parts p) = n ->
  no_file_at_or_above (files s) p ->
  exists s', mkdir_rec n p s = (Ok tt, s') /\
    (forall x, path_prefix x p -> p_parts x <> [] -> In x (fs s')).
Proof.
  revert p s. induction n as [|n IH]; intros p s Hl Hf.
  - assert (E : p_parts p = []) by (destruct (p_parts p); [reflexivity | discriminate]).
    exists s. cbn [mkdir_rec]. unfold catch. rewrite os_mkdir_root by exact E.
    cbv beta iota. rewrite fallback_dir by (apply is_dir_at_true; auto).
    split; [reflexivity|]. intros x [_ [suf Hs]] Hn. rewrite E in Hs.
    symmetry in Hs. apply app_eq_nil in Hs. tauto.
  - assert (Hn : p_parts p <> []) by (intros E; rewrite E in Hl; discriminate).
    assert (Hp : ~ In p (files s)) by (intros H; exact (Hf p H (path_prefix_refl p))).
    cbn [mkdir_rec].
    destruct (resolve_parents (fs s) (files s) (walked_parents p)) as [e|] eqn:R.
    + destruct (resolve_parents_some _ _ _ _ R) as [[-> [q [Hq Hqf]]]| ->].
      { exfalso. exact (Hf q Hqf (walked_prefix q p Hq)). }
      unfold catch. rewrite (os_mkdir_walk_err p s ENOENT Hn R). cbv beta iota.
      destruct (path_eqb (path_parent p) p) eqn:Eq.
      { apply path_eqb_eq in Eq. exfalso. exact (parent_neq p Hn Eq). }
      destruct (IH (path_parent p) s) as [s1 [E1 H1]].
      { simpl. rewrite removelast_length by exact Hn. lia. }
      { intros f Hf1 Hp1. exact (Hf f Hf1 (prefix_of_parent f p Hp1)). }
      unfold bind. rewrite E1.
      destruct (grows_mkdir_rec _ _ _ _ _ E1) as [I1 [F1 _]].
      destruct (catch_os_mkdir_ok p s1
                  (fun e => match e with
                            | OSError ENOENT _ => throw e
                            | OSError _ _ => b <- is_dir p ;; if b then ret tt else throw e
                            | _ => throw e
                            end) Hn) as [s2 [E2 [Hp2 I2]]].
      { apply Forall_forall. intros q Hq. apply H1.
        - apply walked_parent. exact Hq.
        - apply in_walked_parents in Hq. tauto. }
      { rewrite F1. exact Hp. }
      { reflexivity. }
      unfold mkdir_exist_ok. rewrite E2. exists s2. split; [reflexivity|].
      intros x Hx Hxn. destruct (prefix_walked x p Hx Hxn) as [->|Hw]; [exact Hp2|].
      apply I2, H1; [apply walked_parent; exact Hw | exact Hxn].
    + destruct (catch_os_mkdir_ok p s
                  (fun e => match e with
                            | OSError ENOENT _ =>
                                if path_eqb (path_parent p) p then throw e
                                else mkdir_rec n (path_parent p) ;; mkdir_exist_ok p
                            | OSError _ _ => b <- is_dir p ;; if b then ret tt else throw e
                            | _ => throw e
                            end) Hn) as [s2 [E2 [Hp2 I2]]].
      { exact (proj1 (resolve_parents_none _ _ _) R). }
      { exact Hp. }
      { reflexivity. }
      rewrite E2. exists s2. split; [reflexivity|].
      assert (Hw : Forall (fun q => In q (fs s)) (walked_parents p))
        by (exact (proj1 (resolve_parents_none _ _ _) R)).
      rewrite Forall_forall in Hw.
      intros x Hx Hxn. destruct (prefix_walked x p Hx Hxn) as [->|Hw']; [exact Hp2|].
      apply I2, Hw, Hw'.
Qed.

(** [p.mkdir(parents=True, exist_ok=True)] with no file at or above [p]:
    the directories afterwards are those before plus [p] and its
    ancestors. *)
Lemma mkdir_ok p s :
  no_file_at_or_above (files s) p ->
  exists s', mkdir p s = (Ok tt, s') /\ files s' = files s /\ trace s' = trace s /\
    (forall x, In x (fs s') <-> In x (mkdir_parents p (fs s))).
Proof.
  intros Hf. unfold mkdir.
  destruct (mkdir_rec_ok _ p s eq_refl Hf) as [s' [E H]].
  destruct (mkdir_rec_frame _ _ _ _ _ E) as [F [T [N _]]].
  destruct (grows_mkdir_rec _ _ _ _ _ E) as [I _].
  exists s'. split; [exact E|]. split; [exact F|]. split; [exact T|].
  intros x. rewrite in_mkdir_parents. split.
  - intros Hx. destruct (N x Hx) as [H1|[[Hr [suf Hs]] Hn]]; [right; exact H1|left; eauto].
  - intros [[Hr [Hn [suf Hs]]]|Hx]; [apply H; [split; eauto | exact Hn] | apply I; exact Hx].
Qed.

(** *** One job *)

Lemma path_exists_mono s s' p :
  incl (fs s) (fs s') -> files s' = files s ->
  path_exists s p = true -> path_exists s' p = true.
Proof.
  intros I F. rewrite !path_exists_iff, F. intros [[H|H]|H]; auto.
Qed.

Lemma is_supported_qbits_iff q : is_supported_qbits q = true <-> In q SUPPORTED_QBITS.
Proof.
  unfold is_supported_qbits. rewrite existsb_exists. split.
  - intros [x [Hx E]]. apply Z.eqb_eq in E. subst. exact Hx.
  - intros H. exists q. split; [exact H | apply Z.eqb_refl].
Qed.

(** One job whose output path does not exist, with no file at or above
    its parent: the conversion runs, and its directory is there afterwards
    exactly when it exits with 0. *)
Lemma job_runs a m q s :
  let p := job_path (output_dir a) m q in
  no_file_at_or_above (files s) (path_parent p) ->
  path_exists s p = false ->
  exists s2,
    job a m q s =
      (if convert_status (job_cmd a (m, q)) =? 0 then Ok tt
       else Err (CalledProcessError (convert_status (job_cmd a (m, q))) (job_cmd a (m, q))),
       s2) /\
    files s2 = files s /\ trace s2 = trace s ++ job_events a (m, q) /\
    (forall x, In x (fs s2) <->
       (convert_status (job_cmd a (m, q)) = 0 /\ x = p) \/
       In x (mkdir_parents (path_parent p) (fs s))).
Proof.
  intros p Hf Hp.
  destruct (mkdir_ok (path_parent p) s Hf) as [s1 [E1 [F1 [T1 I1]]]].
  assert (Hn := path_exists_false_parts s p Hp).
  assert (Hp1 : path_exists s1 p = false).
  { apply not_true_iff_false. rewrite path_exists_iff, F1, I1, in_mkdir_parents.
    apply not_true_iff_false in Hp. rewrite path_exists_iff in Hp.
    intros [[E|[[Hr [_ [suf Hs]]]|H]]|H]; try tauto.
    apply (not_prefix_parent p Hn). split; eauto. }
  unfold job_events, job_cmd. cbn [fst snd]. fold p.
  unfold ToMlx.job. cbv zeta. fold p.
  unfold bind at 1. rewrite E1. cbv beta iota.
  unfold bind at 1, exists_. cbv beta iota. rewrite Hp1.
  unfold bind, emit, subprocess_run, add_dir, throw. cbv beta iota zeta.
  cbn [fs files trace].
  destruct (convert_status _ =? 0) eqn:Ec; eexists; (split; [reflexivity|]);
    cbn [fs files trace]; rewrite <- ?app_assoc;
    (split; [exact F1|]); (split; [rewrite T1; reflexivity|]).
  - apply Z.eqb_eq in Ec. intros x. rewrite <- I1. simpl. split.
    + intros [<-|H]; [left; auto | right; exact H].
    + intros [[_ <-]|H]; [left; reflexivity | right; exact H].
  - apply Z.eqb_neq in Ec. intros x. rewrite <- I1. split; [auto|].
    intros [[? _]|H]; [contradiction | exact H].
Qed.

(** One job whose output path exists when it is reached. *)
Lemma job_existing a m q s :
  let p := job_path (output_dir a) m q in
  no_file_at_or_above (files s) (path_parent p) ->
  path_exists s p = true ->
  exists s1,
    job a m q s = (Err (OutputExists p), s1) /\
    files s1 = files s /\ trace s1 = trace s /\
    (forall x, In x (fs s1) <-> In x (mkdir_parents (path_parent p) (fs s))).
Proof.
  intros p Hf Hp.
  destruct (mkdir_ok (path_parent p) s Hf) as [s1 [E1 [F1 [T1 I1]]]].
  destruct (grows_mkdir _ _ _ _ E1) as [G1 _].
  assert (Hp1 : path_exists s1 p = true) by exact (path_exists_mono s s1 p G1 F1 Hp).
  unfold ToMlx.job. cbv zeta. fold p.
  unfold bind at 1. rewrite E1. cbv beta iota.
  unfold bind at 1, exists_. cbv beta iota. rewrite Hp1.
  exists s1. unfold throw. auto.
Qed.

(** The four ways one job ends. *)
Lemma job_cases a m q s r s1 :
  let p := job_path (output_dir a) m q in
  job a m q s = (r, s1) ->
  files s1 = files s /\
  ((r = Ok tt /\ In p (fs s1) /\ trace s1 = trace s ++ job_events a (m, q)) \/
   (r = Err (OutputExists p) /\ trace s1 = trace s) \/
   (exists rc, rc <> 0 /\ r = Err (CalledProcessError rc (job_cmd a (m, q))) /\
      trace s1 = trace s ++ job_events a (m, q)) \/
   (exists e f, r = Err (OSError e f) /\ path_prefix f (path_parent p) /\
      trace s1 = trace s)).
Proof.
  intros p H. split; [exact (proj1 (proj2 (grows_job _ _ _ _ _ _ H)))|].
  revert H. unfold job_events, job_cmd. cbn [fst snd]. fold p.
  unfold ToMlx.job. cbv zeta. fold p.
  unfold bind at 1. destruct (mkdir (path_parent p) s) as [[[]|e] s0] eqn:E1;
    destruct (mkdir_rec_frame _ _ _ _ _ E1) as [F0 [T0 [_ R0]]].
  - cbv beta iota. unfold bind at 1, exists_. cbv beta iota.
    destruct (path_exists s0 p).
    + unfold throw. intros [= <- <-]. right; left. split; [reflexivity | exact T0].
    + unfold bind, emit, subprocess_run, add_dir, throw. cbv beta iota zeta.
      cbn [fs files trace]. destruct (convert_status _ =? 0) eqn:Ec;
        intros [= <- <-]; cbn [fs trace]; rewrite <- ?app_assoc, T0.
      * left. split; [reflexivity|]. split; [left; reflexivity | reflexivity].
      * right; right; left. apply Z.eqb_neq in Ec. eexists. eauto.
  - intros [= <- <-]. right; right; right.
    destruct R0 as [?|[e0 [f [[= ->] Hf]]]]; [discriminate|]. eauto.
Qed.

(** *** The loop *)

Lemma run_jobs_fresh a l s :
  let jp j := job_path (output_dir a) (fst j) (snd j) in
  (forall j, In j l -> convert_status (job_cmd a j) = 0) ->
  (forall j, In j l -> path_exists s (jp j) = false) ->
  (forall j, In j l -> no_file_at_or_above (files s) (path_parent (jp j))) ->
  no_later_prefix (map jp l) ->
  exists fs', run_jobs a l s =
    (Ok tt, {| fs := fs'; files := files s;
               trace := trace s ++ flat_map (job_events a) l |}).
Proof.
  intros jp. revert s. induction l as [|[m q] l IH]; intros s Hc He Hf Hn.
  - exists (fs s). simpl. rewrite app_nil_r. destruct s; reflexivity.
  - simpl in Hn. destruct Hn as [Hnp Hn].
    simpl. unfold bind at 1.
    destruct (job_runs a m q s) as [s2 [E2 [F2 [T2 I2]]]];
      [apply (Hf (m, q)); left; reflexivity | apply (He (m, q)); left; reflexivity|].
    rewrite E2, (Hc (m, q) (or_introl eq_refl)). cbv beta iota.
    set (p := job_path (output_dir a) m q) in *.
    destruct (IH s2) as [fs' E].
    + intros j Hj. apply Hc. right. exact Hj.
    + intros j Hj. assert (Hq := He j (or_intror Hj)).
      assert (Hnp' : ~ path_prefix (jp j) p).
      { rewrite Forall_forall in Hnp. apply Hnp. apply in_map. exact Hj. }
      assert (Hne := path_exists_false_parts s _ Hq).
      rewrite <- not_true_iff_false, path_exists_iff in Hq |- *.
      rewrite F2, I2, in_mkdir_parents.
      intros [[H|[[_ E]|[[Hr [_ [suf Hs]]]|H]]]|H]; try tauto.
      * apply Hnp'. rewrite E. apply path_prefix_refl.
      * apply Hnp', prefix_of_parent. split; eauto.
    + intros j Hj. rewrite F2. apply Hf. right. exact Hj.
    + exact Hn.
    + exists fs'. rewrite E, F2, T2. simpl. rewrite <- app_assoc. reflexivity.
Qed.

(** After a successful run of the loop, every output path of it is a
    directory. *)
Lemma run_jobs_made a l s s' :
  run_jobs a l s = (Ok tt, s') ->
  forall j, In j l -> In (job_path (output_dir a) (fst j) (snd j)) (fs s').
Proof.
  revert s. induction l as [|[m q] l IH]; intros s; simpl; [intros _ _ []|].
  unfold bind at 1. destruct (job a m q s) as [r1 s1] eqn:Ej.
  destruct (job_cases _ _ _ _ _ _ Ej) as [_ [[-> [Hp _]]|[[-> _]|[[rc [_ [-> _]]]|[e [f [-> _]]]]]]];
    [|discriminate..].
  intros H j [<-|Hj]; [|exact (IH _ H j Hj)].
  exact (proj1 (grows_run_jobs _ _ _ _ _ H) _ Hp).
Qed.

Lemma run_jobs_trace a l s r s' :
  run_jobs a l s = (r, s') ->
  exists n, trace s' = trace s ++ flat_map (job_events a) (firstn n l).
Proof.
  revert s. induction l as [|[m q] l IH]; intros s.
  - simpl. intros [= _ <-]. exists 0%nat. simpl. rewrite app_nil_r. reflexivity.
  - simpl. unfold bind at 1.
    destruct (job a m q s) as [r1 s1] eqn:Ej.
    destruct (job_cases _ _ _ _ _ _ Ej)
      as [_ [[-> [_ T]]|[[-> T]|[[rc [_ [-> T]]]|[e [f [-> [_ T]]]]]]]].
    + intros H. destruct (IH _ H) as [n Tn]. exists (S n).
      rewrite Tn, T. cbn [firstn flat_map]. rewrite <- app_assoc. reflexivity.
    + intros [= _ <-]. exists 0%nat. cbn [firstn flat_map]. rewrite T, app_nil_r. reflexivity.
    + intros [= _ <-]. exists 1%nat. cbn [firstn flat_map]. rewrite T, app_nil_r. reflexivity.
    + intros [= _ <-]. exists 0%nat. cbn [firstn flat_map]. rewrite T, app_nil_r. reflexivity.
Qed.

Lemma run_jobs_errors a l s e s' :
  run_jobs a l s = (Err e, s') ->
  (exists j, In j l /\ e = OutputExists (job_path (output_dir a) (fst j) (snd j))) \/
  (exists j rc, In j l /\ rc <> 0 /\ e = CalledProcessError rc (job_cmd a j)) \/
  (exists j en f, In j l /\ e = OSError en f /\
     path_prefix f (path_parent (job_path (output_dir a) (fst j) (snd j)))).
Proof.
  revert s. induction l as [|[m q] l IH]; intros s; simpl; [discriminate|].
  unfold bind at 1. destruct (job a m q s) as [r1 s1] eqn:Ej.
  destruct (job_cases _ _ _ _ _ _ Ej)
    as [_ [[-> _]|[[-> _]|[[rc [Hrc [-> _]]]|[en [f [-> [Hf _]]]]]]]].
  - intros H. destruct (IH _ H) as [[j [Hj He]]|[[j [rc [Hj He]]]|[j [en [f [Hj He]]]]]].
    + left. exists j. auto.
    + right; left. exists j, rc. auto.
    + right; right. exists j, en, f. auto.
  - intros [= <- _]. left. exists (m, q). auto.
  - intros [= <- _]. right; left. exists (m, q), rc. auto.
  - intros [= <- _]. right; right. exists (m, q), en, f. auto.
Qed.

Lemma firstn_nth_split {A} (J : list A) k j :
  nth_error J k = Some j ->
  exists l2, J = firstn k J ++ j :: l2.
Proof.
  intros Hk. destruct (nth_error_split J k Hk) as [l1 [l2 [HJ Hl]]].
  exists l2. rewrite HJ at 1. f_equal. rewrite HJ, <- Hl, firstn_app, firstn_all,
    Nat.sub_diag. simpl. rewrite app_nil_r. reflexivity.
Qed.

(** The driver reaching the [k]-th job, whose output path exists then. *)
Lemma main_stops_at_existing a st k j st_k :
  let J := jobs (models_or_default a) (qbits a) in
  let p := job_path (output_dir a) (fst j) (snd j) in
  Forall (fun q => In q SUPPORTED_QBITS) (qbits a) ->
  nth_error J k = Some j ->
  run_jobs a (firstn k J) st = (Ok tt, st_k) ->
  path_exists st_k p = true ->
  no_file_at_or_above (files st) (path_parent p) ->
  exists fs',
    main a st = (Err (OutputExists p), {| fs := fs'; files := files st_k; trace := trace st_k |}) /\
    (forall x, In x fs' <-> In x (mkdir_parents (path_parent p) (fs st_k))).
Proof.
  intros J p Hq Hk Hrun Hex Hf.
  destruct (grows_run_jobs _ _ _ _ _ Hrun) as [_ [Fk _]].
  destruct (firstn_nth_split J k j Hk) as [l2 HJ].
  rewrite main_run_jobs by exact Hq. fold J. rewrite HJ, run_jobs_app.
  unfold bind at 1. rewrite Hrun. destruct j as [m q]. cbn [ToMlx.run_jobs].
  destruct (job_existing a m q st_k) as [s1 [E1 [F1 [T1 I1]]]].
  { rewrite Fk. exact Hf. }
  { exact Hex. }
  unfold bind at 1. rewrite E1. exists (fs s1). split; [|exact I1].
  rewrite <- F1, <- T1. destruct s1; reflexivity.
Qed.

(** ** The driver of [to_mlx.py] *)

(** C6: when some requested bit-width is outside {4, 8}, [main] fails with
    the list of every invalid value before anything else: no directory is
    made, nothing is printed and no process is run. *)
Theorem main_rejects_invalid_qbits :
  forall a st q, In q (qbits a) -> ~ In q SUPPORTED_QBITS ->
    let invalid := filter (fun x => negb (is_supported_qbits x)) (qbits a) in
    main a st = (Err (UnsupportedQbits invalid SUPPORTED_QBITS), st) /\
    (forall x, In x invalid <-> In x (qbits a) /\ ~ In x SUPPORTED_QBITS).
Proof.
  intros a st q Hq Hs invalid.
  assert (Hinv : forall x, In x invalid <-> In x (qbits a) /\ ~ In x SUPPORTED_QBITS).
  { intros x. unfold invalid. rewrite filter_In, negb_true_iff,
      <- not_true_iff_false, is_supported_qbits_iff. reflexivity. }
  split; [|exact Hinv].
  unfold ToMlx.main. fold invalid.
  destruct invalid as [|y ys] eqn:E; [|reflexivity].
  exfalso. apply (proj2 (Hinv q)). auto.
Qed.

(** C7, amended. (1) When every bit-width is valid, every conversion
    succeeds, no job's output path exists beforehand (as a directory or any
    other entry), no regular file is any job's [output_dir / model] or one of
    its ancestors, and no job's output path is equal to or an ancestor of an
    earlier one's, [main] runs exactly one conversion per (model, bits)
    combination, models outside and bits inside, each writing
    [output_dir / model / "q{bits}"]. (2) A combination that occurs twice
    (the [i]-th and the [k]-th job, [i < k]) is converted at most once:
    when the run reaches the [k]-th job, it stops there with
    [OutputExists] naming its path. *)
Theorem main_runs_every_combination :
  (forall a st,
    let J := jobs (models_or_default a) (qbits a) in
    let jp j := job_path (output_dir a) (fst j) (snd j) in
    Forall (fun q => In q SUPPORTED_QBITS) (qbits a) ->
    (forall j, In j J -> convert_status (job_cmd a j) = 0) ->
    (forall j, In j J -> path_exists st (jp j) = false) ->
    (forall j, In j J -> no_file_at_or_above (files st) (path_parent (jp j))) ->
    no_later_prefix (map jp J) ->
    exists fs', main a st =
      (Ok tt, {| fs := fs'; files := files st;
                 trace := trace st ++ flat_map (job_events a) J |})) /\
  (forall a st i k j st_k,
    let J := jobs (models_or_default a) (qbits a) in
    let p := job_path (output_dir a) (fst j) (snd j) in
    Forall (fun q => In q SUPPORTED_QBITS) (qbits a) ->
    (i < k)%nat -> nth_error J i = Some j -> nth_error J k = Some j ->
    no_file_at_or_above (files st) (path_parent p) ->
    run_jobs a (firstn k J) st = (Ok tt, st_k) ->
    exists fs', main a st =
      (Err (OutputExists p), {| fs := fs'; files := files st_k; trace := trace st_k |})).
Proof.
  split.
  - intros a st J jp Hq Hc He Hf Hn.
    rewrite main_run_jobs by exact Hq.
    apply run_jobs_fresh; assumption.
  - intros a st i k j st_k J p Hq Hik Hi Hk Hf Hrun.
    assert (Hin : In j (firstn k J)).
    { destruct (firstn_nth_split J k j Hk) as [l2 HJ].
      apply nth_error_In with i. rewrite HJ in Hi.
      rewrite nth_error_app1 in Hi; [exact Hi|].
      assert (Hkl : (k < List.length J)%nat) by (apply nth_error_Some; congruence).
      rewrite length_firstn. lia. }
    assert (Hex : path_exists st_k p = true).
    { apply path_exists_iff. left. right. exact (run_jobs_made _ _ _ _ Hrun j Hin). }
    destruct (main_stops_at_existing a st k j st_k Hq Hk Hrun Hex Hf) as [fs' [E _]].
    exists fs'. exact E.
Qed.

(** C8: when the output path of the [k]-th job exists at the start of the
    run, or when that job is reached, [main] stops there with
    [OutputExists] naming the path, runs nothing more than the first [k]
    jobs did, and removes no directory; the only directories it has added
    at that point are the parent of that path and its ancestors. The
    condition on regular files holds on any real file system where the
    path exists. *)
Theorem main_refuses_existing_output :
  (forall a st k j st_k,
     let J := jobs (models_or_default a) (qbits a) in
     let p := job_path (output_dir a) (fst j) (snd j) in
     Forall (fun q => In q SUPPORTED_QBITS) (qbits a) ->
     nth_error J k = Some j ->
     run_jobs a (firstn k J) st = (Ok tt, st_k) ->
     path_exists st p = true \/ path_exists st_k p = true ->
     no_file_at_or_above (files st) (path_parent p) ->
     exists fs',
       main a st =
         (Err (OutputExists p), {| fs := fs'; files := files st_k; trace := trace st_k |}) /\
       (forall x, In x fs' <-> In x (mkdir_parents (path_parent p) (fs st_k)))) /\
  (forall a st r st', main a st = (r, st') ->
     incl (fs st) (fs st') /\ files st' = files st).
Proof.
  split.
  - intros a st k j st_k J p Hq Hk Hrun Hex Hf.
    destruct (grows_run_jobs _ _ _ _ _ Hrun) as [Gk [Fk _]].
    apply (main_stops_at_existing a st k j st_k Hq Hk Hrun); [|exact Hf].
    destruct Hex as [H|H]; [exact (path_exists_mono _ _ _ Gk Fk H) | exact H].
  - intros a st r st' H. destruct (grows_main a st r st' H) as [I [F _]]. auto.
Qed.

(** Whatever its outcome, the driver's output is the print-then-run pair
    of the first [n] combinations, in loop order, for some [n]: every
    conversion is announced just before it runs and no combination is
    skipped or repeated. *)
Theorem main_trace_prefix :
  forall a st r st',
    main a st = (r, st') ->
    exists n, trace st' = trace st ++
      flat_map (job_events a) (firstn n (jobs (models_or_default a) (qbits a))).
Proof.
  intros a st r st'. unfold ToMlx.main.
  destruct (filter _ (qbits a)) eqn:E.
  - rewrite loop_models_run_jobs. apply run_jobs_trace.
  - intros [= _ <-]. exists 0%nat. simpl. rewrite app_nil_r. reflexivity.
Qed.

(** The driver fails in four ways only: a non-empty list of unsupported
    bit-widths, an existing output path of one of its combinations, a
    non-zero exit of the conversion command of one of its combinations, or
    an [OSError] of [out_dir.parent.mkdir] on that parent or one of its
    ancestors (a regular file in the way, say). *)
Theorem main_error_kinds :
  forall a st e st',
    let J := jobs (models_or_default a) (qbits a) in
    main a st = (Err e, st') ->
    (exists inv, inv <> [] /\ e = UnsupportedQbits inv SUPPORTED_QBITS) \/
    (exists j, In j J /\ e = OutputExists (job_path (output_dir a) (fst j) (snd j))) \/
    (exists j rc, In j J /\ rc <> 0 /\ e = CalledProcessError rc (job_cmd a j)) \/
    (exists j en f, In j J /\ e = OSError en f /\
       path_prefix f (path_parent (job_path (output_dir a) (fst j) (snd j)))).
Proof.
  intros a st e st' J. unfold ToMlx.main.
  destruct (filter _ (qbits a)) as [|y ys] eqn:E.
  - rewrite loop_models_run_jobs. intros H. right. exact (run_jobs_errors _ _ _ _ _ H).
  - intros [= <- _]. left. exists (y :: ys). split; [discriminate | reflexivity].
Qed.

(** A conversion that exits non-zero stops the driver with
    [CalledProcessError]; the remaining combinations are not attempted. *)
Theorem main_conversion_failure_aborts :
  forall a st k j st_k,
    let J := jobs (models_or_default a) (qbits a) in
    let p := job_path (output_dir a) (fst j) (snd j) in
    Forall (fun q => In q SUPPORTED_QBITS) (qbits a) ->
    nth_error J k = Some j ->
    run_jobs a (firstn k J) st = (Ok tt, st_k) ->
    path_exists st_k p = false ->
    no_file_at_or_above (files st) (path_parent p) ->
    convert_status (job_cmd a j) <> 0 ->
    exists fs',
      main a st =
        (Err (CalledProcessError (convert_status (job_cmd a j)) (job_cmd a j)),
         {| fs := fs'; files := files st_k; trace := trace st_k ++ job_events a j |}).
Proof.
  intros a st k j st_k J p Hq Hk Hrun Hp Hf Hc.
  destruct (grows_run_jobs _ _ _ _ _ Hrun) as [_ [Fk _]].
  destruct (firstn_nth_split J k j Hk) as [l2 HJ].
  rewrite main_run_jobs by exact Hq. fold J. rewrite HJ, run_jobs_app.
  unfold bind at 1. rewrite Hrun. destruct j as [m q]. cbn [ToMlx.run_jobs].
  destruct (job_runs a m q st_k) as [s2 [E2 [F2 [T2 _]]]].
  { rewrite Fk. exact Hf. }
  { exact Hp. }
  unfold bind at 1. rewrite E2. apply Z.eqb_neq in Hc. rewrite Hc.
  exists (fs s2). rewrite <- F2, <- T2. destruct s2; reflexivity.
Qed.

End Facts.

(** C7, as stated, fails: with the model [m1] given twice and bits [8],
    the first conversion writes [out/m1/q8] and the second job stops on it
    with [OutputExists]; only one of the two combinations is converted. *)
Lemma main_jobs_claim_counterexample :
  let a := {| models := Some [lit "m1"; lit "m1"]; qbits := [8];
              output_dir := path_of_str (lit "out"); q_group_size := None;
              dtype := None; trust_remote_code := false |} in
  let r := ToMlx.main (lit "python") (fun _ => 0) a {| fs := []; files := []; trace := [] |} in
  fst r = Err (OutputExists (path_of_str (lit "out/m1/q8"))) /\
  trace (snd r) = job_events (lit "python") a (lit "m1", 8) /\
  flat_map (job_events (lit "python") a) (jobs (models_or_default a) (qbits a))
    <> trace (snd r).
Proof.
  vm_compute. split; [reflexivity | split; [reflexivity | discriminate]].
Qed.

(** C6 witness: bits [4; 16] are refused with [16] reported. *)
Lemma main_rejects_invalid_qbits_witness :
  let a := {| models := None; qbits := [4; 16];
              output_dir := path_of_str (lit "output/mlx"); q_group_size := None;
              dtype := None; trust_remote_code := false |} in
  ToMlx.main (lit "python") (fun _ => 0) a {| fs := []; files := []; trace := [] |} =
    (Err (UnsupportedQbits [16] [4; 8]), {| fs := []; files := []; trace := [] |}).
Proof.
  intros a.
  exact (proj1 (main_rejects_invalid_qbits (lit "python") (fun _ => 0) a
                  {| fs := []; files := []; trace := [] |} 16
                  ltac:(simpl; auto) ltac:(simpl; intuition discriminate))).
Defined.

(** C7 witness. (1) Models [m1; m2], bits [8], base [out]: the conversions
    run for [out/m1/q8] and then [out/m2/q8]. (2) Models [m1; m1]: the
    second job stops on [out/m1/q8], written by the first. *)
Lemma main_runs_every_combination_witness :
  let a := {| models := Some [lit "m1"; lit "m2"]; qbits := [8];
              output_dir := path_of_str (lit "out"); q_group_size := None;
              dtype := None; trust_remote_code := false |} in
  let J := jobs (models_or_default a) (qbits a) in
  let a2 := {| models := Some [lit "m1"; lit "m1"]; qbits := [8];
               output_dir := path_of_str (lit "out"); q_group_size := None;
               dtype := None; trust_remote_code := false |} in
  let st := {| fs := []; files := []; trace := [] |} in
  let st1 := snd (ToMlx.run_jobs (lit "python") (fun _ => 0) a2 [(lit "m1", 8)] st) in
  ((exists fs', ToMlx.main (lit "python") (fun _ => 0) a st =
     (Ok tt, {| fs := fs'; files := [];
                trace := [] ++ flat_map (job_events (lit "python") a) J |})) /\
   map (fun j => path_str (job_path (output_dir a) (fst j) (snd j))) J =
     [lit "out/m1/q8"; lit "out/m2/q8"]) /\
  (exists fs', ToMlx.main (lit "python") (fun _ => 0) a2 st =
     (Err (OutputExists (job_path (output_dir a2) (lit "m1") 8)),
      {| fs := fs'; files := files st1; trace := trace st1 |})).
Proof.
  intros a J a2 st st1. split; [split; [|vm_compute; reflexivity]|].
  - apply (proj1 (main_runs_every_combination (lit "python") (fun _ => 0)) a st).
    + apply Forall_forall. intros x [<-|[]]. simpl. auto.
    + intros; reflexivity.
    + intros j Hj. simpl in Hj. destruct Hj as [<-|[<-|[]]]; reflexivity.
    + intros j _ f [].
    + vm_compute. repeat split; repeat constructor;
        intros [_ [suf H]]; simpl in H; congruence.
  - apply (proj2 (main_runs_every_combination (lit "python") (fun _ => 0))
             a2 st 0%nat 1%nat (lit "m1", 8) st1).
    + apply Forall_forall. intros x [<-|[]]. simpl. auto.
    + lia.
    + reflexivity.
    + reflexivity.
    + intros f [].
    + vm_compute. reflexivity.
Defined.

(** C8 witness: [out/m1/q8] already exists, so the first job stops. *)
Lemma main_refuses_existing_output_witness :
  let a := {| models := Some [lit "m1"]; qbits := [8];
              output_dir := path_of_str (lit "out"); q_group_size := None;
              dtype := None; trust_remote_code := false |} in
  let st := {| fs := [path_of_str (lit "out"); path_of_str (lit "out/m1");
                      path_of_str (lit "out/m1/q8")]; files := []; trace := [] |} in
  exists fs',
    ToMlx.main (lit "python") (fun _ => 0) a st =
      (Err (OutputExists (path_of_str (lit "out/m1/q8"))),
       {| fs := fs'; files := []; trace := [] |}) /\
    (forall x, In x fs' <-> In x (mkdir_parents (path_of_str (lit "out/m1")) (fs st))).
Proof.
  intros a st.
  exact (proj1 (main_refuses_existing_output (lit "python") (fun _ => 0))
           a st 0%nat (lit "m1", 8) st
           ltac:(apply Forall_forall; intros x [<-|[]]; simpl; auto) eq_refl eq_refl
           (or_introl eq_refl) ltac:(intros f [])).
Defined.

(** Witness: models [m1; m2], bits [8], with [out/m2/q8] already there:
    the driver stops at the second job and its output is the pair of the
    first combination. *)
Lemma main_trace_prefix_witness :
  let a := {| models := Some [lit "m1"; lit "m2"]; qbits := [8];
              output_dir := path_of_str (lit "out"); q_group_size := None;
              dtype := None; trust_remote_code := false |} in
  let st := {| fs := [path_of_str (lit "out/m2/q8")]; files := []; trace := [] |} in
  let r := ToMlx.main (lit "python") (fun _ => 0) a st in
  exists n, trace (snd r) = trace st ++
    flat_map (job_events (lit "python") a) (firstn n (jobs (models_or_default a) (qbits a))).
Proof.
  intros a st r.
  apply (main_trace_prefix (lit "python") (fun _ => 0) a st (fst r) (snd r)).
  vm_compute. reflexivity.
Defined.

(** Witness: [out/m1] is a regular file, so [out_dir.parent.mkdir] fails
    with [FileExistsError] on it, an [OSError] of the fourth kind. *)
Lemma main_error_kinds_witness :
  let a := {| models := Some [lit "m1"]; qbits := [8];
              output_dir := path_of_str (lit "out"); q_group_size := None;
              dtype := None; trust_remote_code := false |} in
  let st := {| fs := [path_of_str (lit "out")]; files := [path_of_str (lit "out/m1")];
               trace := [] |} in
  let e := OSError EEXIST (path_of_str (lit "out/m1")) in
  fst (ToMlx.main (lit "python") (fun _ => 0) a st) = Err e /\
  ((exists inv, inv <> [] /\ e = UnsupportedQbits inv SUPPORTED_QBITS) \/
   (exists j, In j (jobs (models_or_default a) (qbits a)) /\
      e = OutputExists (job_path (output_dir a) (fst j) (snd j))) \/
   (exists j rc, In j (jobs (models_or_default a) (qbits a)) /\ rc <> 0 /\
      e = CalledProcessError rc (job_cmd (lit "python") a j)) \/
   (exists j en f, In j (jobs (models_or_default a) (qbits a)) /\ e = OSError en f /\
      path_prefix f (path_parent (job_path (output_dir a) (fst j) (snd j))))).
Proof.
  intros a st e. split; [vm_compute; reflexivity|].
  exact (main_error_kinds (lit "python") (fun _ => 0) a st e
           (snd (ToMlx.main (lit "python") (fun _ => 0) a st))
           ltac:(vm_compute; reflexivity)).
Defined.

(** Witness: models [m1; m2], bits [8]; only the conversion of [m2] fails.
    The first job succeeds, the second stops the driver. *)
Lemma main_conversion_failure_aborts_witness :
  let a := {| models := Some [lit "m1"; lit "m2"]; qbits := [8];
              output_dir := path_of_str (lit "out"); q_group_size := None;
              dtype := None; trust_remote_code := false |} in
  let conv := fun cmd : list pystr => if existsb (pystr_eqb (lit "m2")) cmd then 1 else 0 in
  let st := {| fs := []; files := []; trace := [] |} in
  let st1 := snd (ToMlx.run_jobs (lit "python") conv a [(lit "m1", 8)] st) in
  exists fs',
    ToMlx.main (lit "python") conv a st =
      (Err (CalledProcessError 1 (job_cmd (lit "python") a (lit "m2", 8))),
       {| fs := fs'; files := files st1;
          trace := trace st1 ++ job_events (lit "python") a (lit "m2", 8) |}).
Proof.
  intros a conv st st1.
  exact (main_conversion_failure_aborts (lit "python") conv a st 1%nat (lit "m2", 8) st1
           ltac:(apply Forall_forall; intros x [<-|[]]; simpl; auto)
           ltac:(vm_compute; reflexivity) ltac:(vm_compute; reflexivity)
           ltac:(vm_compute; reflexivity) ltac:(intros f [])
           ltac:(vm_compute; discriminate)).
Defined.

(** ** Further properties of [to_mlx.py] *)

Definition digit_or_minus (c : Z) : Prop := (48 <= c <= 57) \/ c = 45.

Lemma digits_aux_chars fuel n acc :
  Forall digit_or_minus acc -> Forall digit_or_minus (digits_aux fuel n acc).
Proof.
  revert n acc. induction fuel as [|f IH]; intros n acc H; [exact H|].
  assert (Hd : digit_or_minus (48 + Z.of_N (N.modulo n 10))).
  { left. pose proof (N.mod_lt n 10 ltac:(discriminate)) as Hm. generalize dependent (N.modulo n 10). intros r Hr. pose proof (N2Z.inj_lt r 10) as Hz. pose proof (N2Z.is_nonneg r). simpl in Hz. lia. }
  cbn [digits_aux].
  destruct (N.eqb (N.div n 10) 0); [constructor; auto | apply IH; constructor; auto].
Qed.

Lemma int_str_chars q : Forall digit_or_minus (int_str q).
Proof.
  unfold int_str.
  assert (H := digits_aux_chars (S (N.size_nat (Z.abs_N q))) (Z.abs_N q) [] (Forall_nil _)).
  destruct (q <? 0); [constructor; [right; reflexivity | exact H] | exact H].
Qed.

Lemma split_slash_aux_noslash s cur :
  Forall (fun c => c <> 47) s -> split_slash_aux s cur = [rev cur ++ s].
Proof.
  revert cur. induction s as [|c s IH]; intros cur H; simpl.
  - rewrite app_nil_r. reflexivity.
  - inversion H as [|? ? Hc Hs]; subst.
    destruct (c =? 47) eqn:E; [apply Z.eqb_eq in E; contradiction|].
    rewrite IH by exact Hs. simpl. rewrite <- app_assoc. reflexivity.
Qed.

(** Each job's output path is [base / model] with the single component
    [q{bits}] added: the rendering of the bit-width never adds a path
    separator, so the directory made before the existence check is exactly
    [base / model]. *)
Theorem job_path_shape :
  forall base m q,
    job_path base m q =
      {| p_root := p_root (path_div base m);
         p_parts := p_parts (path_div base m) ++ [lit "q" ++ int_str q] |} /\
    path_parent (job_path base m q) = path_div base m.
Proof.
  intros base m q.
  assert (Hs : split_slash (lit "q" ++ int_str q) = [lit "q" ++ int_str q]).
  { unfold split_slash. apply split_slash_aux_noslash.
    constructor; [discriminate|].
    apply Forall_impl with (P := digit_or_minus); [|apply int_str_chars].
    intros c [Hc|Hc]; lia. }
  assert (Hk : keep_part (lit "q" ++ int_str q) = true).
  { unfold keep_part.
    destruct (pystr_eqb (lit "q" ++ int_str q) []) eqn:E1;
      [apply CliFacts.pystr_eqb_eq in E1; discriminate|].
    destruct (pystr_eqb (lit "q" ++ int_str q) (lit ".")) eqn:E2;
      [apply CliFacts.pystr_eqb_eq in E2; discriminate|].
    reflexivity. }
  assert (Hj : job_path base m q =
      {| p_root := p_root (path_div base m);
         p_parts := p_parts (path_div base m) ++ [lit "q" ++ int_str q] |}).
  { unfold job_path, path_div at 1, path_of_str. rewrite Hs. cbn [filter].
    rewrite Hk. reflexivity. }
  split; [exact Hj|].
  rewrite Hj. unfold path_parent. simpl. rewrite removelast_last.
  destruct (path_div base m). reflexivity.
Qed.

Lemma int_str_neq g s c :
  In c s -> ~ digit_or_minus c -> int_str g <> s.
Proof.
  intros Hc Hd E. subst s.
  exact (Hd (proj1 (Forall_forall _ _) (int_str_chars g) c Hc)).
Qed.

Ltac flag_neq :=
  match goal with
  | H : int_str ?g = lit ?s |- _ =>
      exfalso; apply (int_str_neq g (lit s) 100); [vm_compute; tauto | unfold digit_or_minus; lia | exact H]
  | H : lit ?s = int_str ?g |- _ =>
      exfalso; apply (int_str_neq g (lit s) 100); [vm_compute; tauto | unfold digit_or_minus; lia | symmetry; exact H]
  | H : lit _ = lit _ |- _ => vm_compute in H; discriminate H
  end.

(** In the command built for a job, after the eleven fixed items, the flag
    [--q-group-size] appears exactly when a group size is given, [--dtype]
    exactly when a data type is given, and [--trust-remote-code] exactly
    when that option is set: a number or one of the three accepted data
    types never spells a flag. *)
Theorem build_command_optional_flags :
  forall sys m out qb g d t,
    (d = None \/ d = Some (lit "float16") \/ d = Some (lit "bfloat16") \/
     d = Some (lit "float32")) ->
    let tail := skipn 11 (build_command sys m out qb g d t) in
    (In (lit "--q-group-size") tail <-> g <> None) /\
    (In (lit "--dtype") tail <-> d <> None) /\
    (In (lit "--trust-remote-code") tail <-> t = true).
Proof.
  intros sys m out qb g d t Hd tail.
  assert (Ht : tail =
    match g with Some g => [lit "--q-group-size"; int_str g] | None => [] end
    ++ match d with Some d => [lit "--dtype"; d] | None => [] end
    ++ (if t then [lit "--trust-remote-code"] else [])) by reflexivity.
  rewrite Ht. clear tail Ht.
  destruct Hd as [ -> | [ -> | [ -> | -> ]]]; destruct g as [g|]; destruct t;
    cbn [app]; repeat split;
    first [ intros H; simpl in H;
            repeat match type of H with _ \/ _ => destruct H as [H|H] end;
            solve [contradiction | congruence | flag_neq]
          | intros H; simpl; solve [auto 10 | exfalso; congruence] ].
Qed.

(** Witness: group size 0 (rendered [0]), data type [bfloat16], no trust flag. *)
Lemma build_command_optional_flags_witness :
  let tail := skipn 11 (build_command (lit "python") (lit "m1")
                 (path_of_str (lit "out/m1/q4")) 4 (Some 0) (Some (lit "bfloat16")) false) in
  tail = [lit "--q-group-size"; lit "0"; lit "--dtype"; lit "bfloat16"] /\
  ((In (lit "--q-group-size") tail <-> Some 0 <> None) /\
   (In (lit "--dtype") tail <-> Some (lit "bfloat16") <> None) /\
   (In (lit "--trust-remote-code") tail <-> false = true)).
Proof.
  split; [vm_compute; reflexivity|].
  exact (build_command_optional_flags (lit "python") (lit "m1")
           (path_of_str (lit "out/m1/q4")) 4 (Some 0) (Some (lit "bfloat16")) false
           (or_intror (or_intror (or_introl eq_refl)))).
Defined.

End ToMlxFacts.
